(** * The authenticated HTTP client of [src/lib/axios.ts]

    The module keeps the access token in a module-level variable, attaches
    it to every outgoing request in a request interceptor, and reacts to
    [401] responses in a response interceptor that refreshes the token and
    replays the failed requests.

    The embedding follows the file top to bottom.  The axios instance, the
    network and the callers of [apiClient] are the environment: they appear
    as events of a transition system whose state holds the three module
    variables ([accessToken], [isRefreshing], [failedQueue]) and the requests
    that are on the wire. *)

From stdpp Require Import gmap strings list fin_maps.

Open Scope string_scope.
Open Scope list_scope.
Open Scope nat_scope.

(** ** Data *)

(** An axios request config, as far as the module looks at it.  [headers]
    is an object indexed by header name; [_retry] is the marker the response
    interceptor adds (absent reads as [false]). *)
Record config := Config {
  url : string;
  method : string;
  headers : gmap string string;
  body : string;
  _retry : bool
}.

Definition set_header (name value : string) (c : config) : config :=
  Config (url c) (method c) (<[name := value]> (headers c)) (body c) (_retry c).

Definition set_retry (b : bool) (c : config) : config :=
  Config (url c) (method c) (headers c) (body c) b.

(** A template literal [`Bearer ${t}`]. *)
Definition bearer (t : string) : string := "Bearer " +:+ t.

(** [config.headers.Authorization = `Bearer ${t}`] *)
Definition with_bearer (t : string) (c : config) : config :=
  set_header "Authorization" (bearer t) c.

(** JavaScript truthiness of a [string | null]: [null] and the empty string
    are falsy. *)
Definition truthy (t : option string) : bool :=
  match t with
  | Some s => negb (String.eqb s "")
  | None => false
  end.

(** A template literal prints [null] as the word. *)
Definition show (t : option string) : string := default "null" t.

(** ** Lines 20-25: the request interceptor *)

Definition request_interceptor (accessToken : option string) (c : config) : config :=
  if truthy accessToken then with_bearer (show accessToken) c else c.

Arguments request_interceptor : simpl never.

(** ** Responses, errors and continuations *)

(** The [data] of a response.  The refresh call types it as
    [{ access: string }]; whatever else it holds is opaque. *)
Record payload := Payload {
  access : string;
  other : string
}.

Record axios_response := Response {
  status : Z;
  data : payload
}.

(** An [AxiosError].  [response] is absent when the request never got an
    answer (network failure, timeout). *)
Record error := AxiosError {
  message : string;
  response : option axios_response
}.

(** How a promise settles. *)
Inductive result :=
  | Ok (res : axios_response)
  | Err (e : error).

(** What a promise returned by the client is waiting to be continued with.
    [KCaller id] is the promise handed to the service module that made call
    number [id].  [KRefresh originalRequest k] is an invocation of the
    response error handler suspended at the [await] of line 59: it holds the
    request that failed and, in [k], the promise that this invocation itself
    has to settle. *)
Inductive cont :=
  | KCaller (id : nat)
  | KRefresh (originalRequest : config) (k : cont).

(** An entry of [failedQueue]: the [resolve]/[reject] pair of the promise of
    line 47.  Its [then] callback closes over [originalRequest]; the promise
    chain ends in [w_cont]. *)
Record waiter := Waiter {
  w_request : config;
  w_cont : cont
}.

(** The argument a queued promise is settled with by [processQueue]. *)
Inductive wake :=
  | Resolve (token : option string)
  | Reject (err : error).

(** ** Module state and the requests on the wire *)

Record state := State {
  accessToken : option string;
  isRefreshing : bool;
  failedQueue : list waiter;
  inflight : gmap nat (config * cont);
  next_rid : nat;
  next_caller : nat
}.

Definition init : state := State None false [] ∅ 0 0.

(** Lines 8-10. *)
Definition setAccessToken (token : option string) (σ : state) : state :=
  State token (isRefreshing σ) (failedQueue σ) (inflight σ) (next_rid σ) (next_caller σ).

Definition set_isRefreshing (b : bool) (σ : state) : state :=
  State (accessToken σ) b (failedQueue σ) (inflight σ) (next_rid σ) (next_caller σ).

Definition set_failedQueue (q : list waiter) (σ : state) : state :=
  State (accessToken σ) (isRefreshing σ) q (inflight σ) (next_rid σ) (next_caller σ).

Definition set_inflight (m : gmap nat (config * cont)) (σ : state) : state :=
  State (accessToken σ) (isRefreshing σ) (failedQueue σ) m (next_rid σ) (next_caller σ).

Definition set_next_rid (n : nat) (σ : state) : state :=
  State (accessToken σ) (isRefreshing σ) (failedQueue σ) (inflight σ) n (next_caller σ).

Definition set_next_caller (n : nat) (σ : state) : state :=
  State (accessToken σ) (isRefreshing σ) (failedQueue σ) (inflight σ) (next_rid σ) n.

(** ** Observable actions *)

Inductive action :=
  | Send (rid : nat) (c : config)        (* a request leaves for the server *)
  | Settle (id : nat) (r : result)       (* the promise of call [id] settles *)
  | Logout                               (* dispatchEvent("auth:logout") *)
  | Join (p : waiter)                    (* failedQueue.push(p) *)
  | Woken (p : waiter) (v : wake).       (* p.resolve(token) / p.reject(error) *)

(** Promise reactions that are scheduled but have not run yet. *)
Inductive job :=
  | JSettle (k : cont) (r : result)
  | JWake (p : waiter) (v : wake).

(** ** The client *)

(** [apiClient(config)], for a config already merged with the defaults of
    the instance: the config passes the request interceptor and the request
    is sent; the promise of the call is continued by [k].

    The interceptor of line 20 is registered without the [synchronous]
    option, so axios runs it in a reaction of its own, after the
    synchronous code that made the call, and the cell is read then.  The
    model reads the cell at the call.  The two agree for the events below,
    each of which is a turn of its own: the handlers of the module write
    the cell before they call [apiClient] (line 62 comes before lines 63-65
    and before the callbacks of line 49), never after.  They differ for a
    caller that writes the cell after a call in the same synchronous block,
    which sends the request with the later token; [event] has no such
    block, and nothing below speaks about one. *)
Definition apiClient (c : config) (k : cont) (σ : state) : state * list action :=
  let c' := request_interceptor (accessToken σ) c in
  let rid := next_rid σ in
  (set_next_rid (S rid) (set_inflight (<[rid := (c', k)]> (inflight σ)) σ),
   [Send rid c']).

(** The config of [apiClient.post("/accounts/token/refresh/")]: no body, the
    instance defaults of lines 12-18 for the headers. *)
Definition refresh_url : string := "/accounts/token/refresh/".

Definition refresh_request : config :=
  Config refresh_url "post" {[ "Content-Type" := "application/json" ]} "" false.

(** Lines 33-36.  Settling the queued promises only schedules their
    reactions; the queue is reset before any of them runs. *)
Definition processQueue (error : option error) (token : option string) (σ : state)
  : state * list action * list job :=
  let v := match error with
           | Some e => Reject e
           | None => Resolve token
           end in
  (set_failedQueue [] σ,
   map (λ p, Woken p v) (failedQueue σ),
   map (λ p, JWake p v) (failedQueue σ)).

(** Lines 40-61: the response error handler up to its [await].  [c] is
    [error.config], the config the failed request was sent with, and [k]
    the promise the handler's own result goes to. *)
Definition onRejected (c : config) (k : cont) (e : error) (σ : state)
  : state * list action * list job :=
  if bool_decide (status <$> response e = Some 401%Z) && negb (_retry c) then
    if isRefreshing σ then
      let p := Waiter c k in
      (set_failedQueue (failedQueue σ ++ [p]) σ, [Join p], [])
    else
      let originalRequest := set_retry true c in
      let σ1 := set_isRefreshing true σ in
      let '(σ2, ts) := apiClient refresh_request (KRefresh originalRequest k) σ1 in
      (σ2, ts, [])
  else
    (σ, [], [JSettle k (Err e)]).

(** Lines 59-73: the same handler once the refresh call has settled.  The
    rejection returned at line 70 is scheduled after the reactions that
    [processQueue] has scheduled ([run_job] says how far the order in which
    they arrive can be trusted). *)
Definition afterRefresh (originalRequest : config) (k : cont) (r : result) (σ : state)
  : state * list action * list job :=
  match r with
  | Ok res =>
      let tok := access (data res) in
      let σ1 := setAccessToken (Some tok) σ in
      let '(σ2, ts, js) := processQueue None (Some tok) σ1 in
      let originalRequest' := with_bearer tok originalRequest in
      let '(σ3, ts') := apiClient originalRequest' k σ2 in
      (set_isRefreshing false σ3, ts ++ ts', js)
  | Err refreshError =>
      let '(σ1, ts, js) := processQueue (Some refreshError) None σ in
      let σ2 := setAccessToken None σ1 in
      (set_isRefreshing false σ2, ts ++ [Logout], js ++ [JSettle k (Err refreshError)])
  end.

(** A promise that leads to [k] settles with [r]: the caller sees it, or
    the suspended handler resumes. *)
Definition settle (k : cont) (r : result) (σ : state) : state * list action * list job :=
  match k with
  | KCaller id => (σ, [Settle id r], [])
  | KRefresh originalRequest k' => afterRefresh originalRequest k' r σ
  end.

(** One promise reaction.  A queued promise that is resolved runs the
    [then] callback of lines 49-52; one that is rejected skips it, and the
    rejection goes on to whoever waits for the handler's result.

    Between a queued promise and the promise of the caller lie further
    promises: the one [then] returns, the result of the handler, those of
    axios, and one such chain more for every earlier time the request was
    queued and replayed.  The model keeps the two ends only: a replay is
    tied to [w_cont p] directly, and a rejection reaches [w_cont p] in the
    same reaction.  Which calls a turn settles, and with what, does not
    depend on the length of the chain, since a turn runs every reaction to
    the end; the order among the [Settle]s of different calls in one turn
    does.  Only the turn of a failed refresh settles more than one call, and
    there the trace lists the callers of the queued requests in queue order
    and the caller that set off the refresh last, whereas in the browser
    the lengths of the chains decide (a caller whose request had been
    queued and replayed before stands behind a longer one).  So the order
    of [Woken], [Send] and [Logout] in a trace is that of the code, and the
    settlements of such a turn are to be read as a multiset: the properties
    below state them up to permutation. *)
Definition run_job (j : job) (σ : state) : state * list action * list job :=
  match j with
  | JSettle k r => settle k r σ
  | JWake p (Resolve token) =>
      let c := with_bearer (show token) (w_request p) in
      let '(σ', ts) := apiClient c (w_cont p) σ in
      (σ', ts, [])
  | JWake p (Reject e) => settle (w_cont p) (Err e) σ
  end.

(** The reactions run first in, first out, until none is left; what a
    reaction schedules goes to the back.  [drain] returns the jobs it had no
    fuel for. *)
Fixpoint drain (fuel : nat) (js : list job) (σ : state) : state * list action * list job :=
  match fuel, js with
  | S n, j :: js' =>
      let '(σ1, ts, new) := run_job j σ in
      let '(σ2, ts', rest) := drain n (js' ++ new) σ1 in
      (σ2, ts ++ ts', rest)
  | _, _ => (σ, [], js)
  end.

Fixpoint cont_size (k : cont) : nat :=
  match k with
  | KCaller _ => 1
  | KRefresh _ k' => S (cont_size k')
  end.

Definition job_weight (j : job) : nat :=
  match j with
  | JSettle k _ => cont_size k
  | JWake p _ => S (cont_size (w_cont p))
  end.

Definition queue_weight (q : list waiter) : nat :=
  sum_list_with (λ p, S (cont_size (w_cont p))) q.

(** A bound on the number of reactions still to run. *)
Definition weight (js : list job) (σ : state) : nat :=
  sum_list_with job_weight js + queue_weight (failedQueue σ).

Definition microtasks (js : list job) (σ : state) : state * list action :=
  (drain (weight js σ) js σ).1.

(** ** Events *)

Inductive event :=
  | Call (c : config)                  (* a service module calls apiClient(c) *)
  | Respond (rid : nat) (r : result)   (* request [rid] comes back *)
  | SetToken (t : option string).      (* the login flow calls setAccessToken *)

(** One turn of the event loop: the event's own handler, then every
    reaction it gave rise to. *)
Definition step (σ : state) (ev : event) : state * list action :=
  match ev with
  | Call c =>
      let id := next_caller σ in
      apiClient c (KCaller id) (set_next_caller (S id) σ)
  | SetToken t => (setAccessToken t σ, [])
  | Respond rid r =>
      match inflight σ !! rid with
      | None => (σ, [])
      | Some (c, k) =>
          let σ0 := set_inflight (delete rid (inflight σ)) σ in
          let '(σ1, ts, js) :=
            match r with
            | Ok res => (σ0, [], [JSettle k (Ok res)])   (* line 39 *)
            | Err e => onRejected c k e σ0
            end in
          let '(σ2, ts') := microtasks js σ1 in
          (σ2, ts ++ ts')
      end
  end.

Fixpoint run (σ : state) (evs : list event) : state * list action :=
  match evs with
  | [] => (σ, [])
  | ev :: evs' =>
      let '(σ1, ts) := step σ ev in
      let '(σ2, ts') := run σ1 evs' in
      (σ2, ts ++ ts')
  end.

(** The states the module can be in. *)
Inductive reachable : state → Prop :=
  | reachable_init : reachable init
  | reachable_step σ ev : reachable σ → reachable (step σ ev).1.

(** ** Reading a trace *)

Definition sends (ts : list action) : list (nat * config) :=
  omap (λ a, match a with Send rid c => Some (rid, c) | _ => None end) ts.

Definition settles (ts : list action) : list (nat * result) :=
  omap (λ a, match a with Settle id r => Some (id, r) | _ => None end) ts.

Definition joined (ts : list action) : list waiter :=
  omap (λ a, match a with Join p => Some p | _ => None end) ts.

Definition woken (ts : list action) : list waiter :=
  omap (λ a, match a with Woken p _ => Some p | _ => None end) ts.

Definition logouts (ts : list action) : nat :=
  length (omap (λ a, match a with Logout => Some () | _ => None end) ts).

(** Calls to the refresh endpoint. *)
Definition refresh_calls (ts : list action) : list (nat * config) :=
  filter (λ x, url x.2 = refresh_url) (sends ts).

(** The requests of a batch of responses that will wait in the queue. *)
Definition waiters_of (m : gmap nat (config * cont)) (rids : list nat) : list waiter :=
  omap (λ rid, (λ x, Waiter x.1 x.2) <$> m !! rid) rids.

(** ** Sample data for the scenarios *)

Definition e401 : error :=
  AxiosError "Request failed with status code 401" (Some (Response 401 (Payload "" ""))).

Definition e500 : error :=
  AxiosError "Request failed with status code 500" (Some (Response 500 (Payload "" ""))).

Definition network_error : error := AxiosError "Network Error" None.

Definition get (u : string) : config :=
  Config u "get" {[ "Content-Type" := "application/json" ]} "" false.

Definition ok (t : string) : result := Ok (Response 200 (Payload t "")).

(** ** Predicates on states and traces used below *)

(** Ids at or above [next_rid] are not in use. *)
Definition fresh (σ : state) : Prop :=
  ∀ rid, next_rid σ ≤ rid → inflight σ !! rid = None.

(** The state after the queued requests have been sent again. *)
Definition replay_all (tok : string) (q : list waiter) (σ : state) : state :=
  foldl (λ σ p, (apiClient (with_bearer tok (w_request p)) (w_cont p) σ).1) σ q.

(** [isRefreshing] is set, but neither the refresh call nor anything that
    would resume the handler waiting for it is on the wire. *)
Definition stuck (σ : state) : Prop :=
  isRefreshing σ = true
  ∧ ∀ rid c k, inflight σ !! rid = Some (c, k) → ∃ id, k = KCaller id.

(** Call [id] was made and no request on the wire answers to it. *)
Definition parked (id : nat) (σ : state) : Prop :=
  id < next_caller σ
  ∧ ∀ rid c, inflight σ !! rid ≠ Some (c, KCaller id).

(** The urls of the requests sent, in order. *)
Definition sent_urls (ts : list action) : list string :=
  map (λ x, url x.2) (sends ts).

(** The call a promise belongs to, when it is a service module's. *)
Definition caller_id (k : cont) : option nat :=
  match k with
  | KCaller id => Some id
  | KRefresh _ _ => None
  end.

(** The calls whose requests wait in a queue. *)
Definition queued_callers (q : list waiter) : list nat :=
  omap (λ p, caller_id (w_cont p)) q.

(** Everything on the wire was sent for a service module. *)
Definition callers_only (σ : state) : Prop :=
  ∀ rid c k, inflight σ !! rid = Some (c, k) → is_Some (caller_id k).

(** The refresh call is request [rid]; it is not marked [_retry], the
    request that set it off is, and that request came from a service
    module, as did everything else on the wire or in the queue; the queued
    requests are not marked. *)
Definition refreshing_at (rid : nat) (σ : state) : Prop :=
  (∃ c orig id, inflight σ !! rid = Some (c, KRefresh orig (KCaller id))
                ∧ _retry c = false ∧ _retry orig = true)
  ∧ (∀ rid' c k, rid' ≠ rid → inflight σ !! rid' = Some (c, k) →
       is_Some (caller_id k))
  ∧ Forall (λ p, is_Some (caller_id (w_cont p))) (failedQueue σ)
  ∧ Forall (λ p, _retry (w_request p) = false) (failedQueue σ).

(** The shape of a reachable state. *)
Definition wf (σ : state) : Prop :=
  fresh σ
  ∧ if isRefreshing σ
    then (∃ rid, refreshing_at rid σ) ∨ callers_only σ
    else failedQueue σ = [] ∧ callers_only σ.

(** ** What one turn can do *)

(** The turns of a client in a reachable state, one constructor for each
    path through lines 38-77 and for the two calls from outside.  The
    traces are those of [step]; the [Settle]s of [turn_refresh_failed] come
    in the model's order (see [run_job]). *)
Inductive turn (σ : state) : event → state * list action → Prop :=
  | turn_call c :
      turn σ (Call c)
        (apiClient c (KCaller (next_caller σ)) (set_next_caller (S (next_caller σ)) σ))
  | turn_set t :
      turn σ (SetToken t) (setAccessToken t σ, [])
  | turn_stray rid r :
      inflight σ !! rid = None →
      turn σ (Respond rid r) (σ, [])
  | turn_deliver rid c id r :
      inflight σ !! rid = Some (c, KCaller id) →
      (∀ e, r = Err e → status <$> response e ≠ Some 401%Z ∨ _retry c = true) →
      turn σ (Respond rid r)
        (set_inflight (delete rid (inflight σ)) σ, [Settle id r])
  | turn_join rid c k e :
      inflight σ !! rid = Some (c, k) →
      status <$> response e = Some 401%Z → _retry c = false →
      isRefreshing σ = true →
      turn σ (Respond rid (Err e))
        (set_failedQueue (failedQueue σ ++ [Waiter c k])
           (set_inflight (delete rid (inflight σ)) σ),
         [Join (Waiter c k)])
  | turn_trigger rid c id e :
      inflight σ !! rid = Some (c, KCaller id) →
      status <$> response e = Some 401%Z → _retry c = false →
      isRefreshing σ = false →
      turn σ (Respond rid (Err e))
        (apiClient refresh_request (KRefresh (set_retry true c) (KCaller id))
           (set_isRefreshing true (set_inflight (delete rid (inflight σ)) σ)))
  | turn_refreshed rid c orig id res :
      inflight σ !! rid = Some (c, KRefresh orig (KCaller id)) →
      turn σ (Respond rid (Ok res))
        (replay_all (access (data res)) (failedQueue σ)
           (set_isRefreshing false
              (apiClient (with_bearer (access (data res)) orig) (KCaller id)
                 (set_failedQueue []
                    (setAccessToken (Some (access (data res)))
                       (set_inflight (delete rid (inflight σ)) σ)))).1),
         map (λ p, Woken p (Resolve (Some (access (data res))))) (failedQueue σ)
         ++ Send (next_rid σ) (with_bearer (access (data res)) orig)
         :: imap (λ i p, Send (S (next_rid σ) + i)
                           (with_bearer (access (data res)) (w_request p)))
              (failedQueue σ))
  | turn_refresh_failed rid c orig id e :
      inflight σ !! rid = Some (c, KRefresh orig (KCaller id)) →
      status <$> response e ≠ Some 401%Z →
      turn σ (Respond rid (Err e))
        (set_isRefreshing false
           (setAccessToken None
              (set_failedQueue [] (set_inflight (delete rid (inflight σ)) σ))),
         map (λ p, Woken p (Reject e)) (failedQueue σ)
         ++ Logout
         :: map (λ id, Settle id (Err e)) (queued_callers (failedQueue σ))
         ++ [Settle id (Err e)]).

(** ** Who is waiting for what *)

(** The call at the end of a chain of promises. *)
Fixpoint owner (k : cont) : nat :=
  match k with
  | KCaller id => id
  | KRefresh _ k' => owner k'
  end.

(** The calls with a request on the wire, the calls parked in the queue,
    and both together. *)
Definition on_wire (σ : state) : list nat :=
  (λ x, owner x.2.2) <$> map_to_list (inflight σ).

Definition queued (σ : state) : list nat :=
  (λ p, owner (w_cont p)) <$> failedQueue σ.

Definition pending (σ : state) : list nat := on_wire σ ++ queued σ.

Definition job_owner (j : job) : nat :=
  match j with
  | JSettle k _ => owner k
  | JWake p _ => owner (w_cont p)
  end.

(** The calls settled in a trace, in order. *)
Definition settled (ts : list action) : list nat := (settles ts).*1.

(** A refresh call is outstanding: on the wire, or parked in the queue. *)
Definition refresh_on_wire (σ : state) : Prop :=
  ∃ rid c orig k, inflight σ !! rid = Some (c, KRefresh orig k).

Definition refresh_parked (σ : state) : Prop :=
  ∃ p orig k, p ∈ failedQueue σ ∧ w_cont p = KRefresh orig k.

(** * Properties *)

Ltac split_all := repeat match goal with |- _ ∧ _ => split end.

(** ** The reactions always run to the end *)

Lemma job_weight_pos j : 0 < job_weight j.
Proof. destruct j as [[]|]; simpl; lia. Qed.

Lemma queue_weight_jobs (q : list waiter) (v : wake) :
  sum_list_with job_weight (map (λ p, JWake p v) q) = queue_weight q.
Proof.
  unfold queue_weight. induction q as [|p q IH]; simpl; [done | by rewrite IH].
Qed.

Lemma run_job_weight j js σ σ' ts new :
  run_job j σ = (σ', ts, new) →
  weight (js ++ new) σ' < weight (j :: js) σ.
Proof.
  unfold weight. rewrite sum_list_with_app. intros Hj.
  assert (∀ k r, settle k r σ = (σ', ts, new) →
            sum_list_with job_weight new + queue_weight (failedQueue σ')
            < cont_size k + queue_weight (failedQueue σ)) as Hsettle.
  { intros [id|orig k] r; simpl.
    - intros [= <- <- <-]. simpl. lia.
    - destruct r as [res|e]; simpl; intros [= <- <- <-]; simpl.
      + rewrite queue_weight_jobs. unfold queue_weight; simpl. lia.
      + rewrite sum_list_with_app, queue_weight_jobs.
        unfold queue_weight; simpl. lia. }
  destruct j as [k r|p [token|e]]; simpl in *.
  - specialize (Hsettle _ _ Hj). lia.
  - injection Hj as <- <- <-. simpl. lia.
  - specialize (Hsettle _ _ Hj). lia.
Qed.

Lemma drain_complete fuel : ∀ js σ,
  weight js σ ≤ fuel → (drain fuel js σ).2 = [].
Proof.
  induction fuel as [|n IH]; intros js σ Hw.
  - destruct js as [|j js]; [done|].
    pose proof (job_weight_pos j). unfold weight in Hw. simpl in Hw. lia.
  - destruct js as [|j js]; [done|]. simpl.
    destruct (run_job j σ) as [[σ1 ts] new] eqn:Hj.
    pose proof (run_job_weight _ js _ _ _ _ Hj) as Hlt.
    specialize (IH (js ++ new) σ1 ltac:(lia)).
    destruct (drain n (js ++ new) σ1) as [[σ2 ts'] rest]. done.
Qed.

Lemma drain_fuel fuel : ∀ fuel' js σ,
  weight js σ ≤ fuel → weight js σ ≤ fuel' →
  drain fuel js σ = drain fuel' js σ.
Proof.
  induction fuel as [|n IH]; intros fuel' js σ Hw Hw'.
  - destruct js as [|j js]; [by destruct fuel'|].
    pose proof (job_weight_pos j). unfold weight in Hw. simpl in Hw. lia.
  - destruct js as [|j js]; [by destruct fuel'|].
    destruct fuel' as [|n'].
    { pose proof (job_weight_pos j). unfold weight in Hw'. simpl in Hw'. lia. }
    simpl. destruct (run_job j σ) as [[σ1 ts] new] eqn:Hj.
    pose proof (run_job_weight _ js _ _ _ _ Hj) as Hlt.
    by rewrite (IH n' (js ++ new) σ1) by lia.
Qed.

(** [microtasks] leaves no reaction behind. *)
Lemma microtasks_complete js σ : (drain (weight js σ) js σ).2 = [].
Proof. by apply drain_complete. Qed.

Lemma microtasks_nil σ : microtasks [] σ = (σ, []).
Proof. unfold microtasks. by destruct (weight [] σ). Qed.

Lemma microtasks_cons j js σ :
  microtasks (j :: js) σ =
  let '(σ1, ts, new) := run_job j σ in
  let '(σ2, ts') := microtasks (js ++ new) σ1 in
  (σ2, ts ++ ts').
Proof.
  unfold microtasks.
  destruct (weight (j :: js) σ) as [|n] eqn:Hn.
  { pose proof (job_weight_pos j). unfold weight in Hn. simpl in Hn. lia. }
  simpl. destruct (run_job j σ) as [[σ1 ts] new] eqn:Hj.
  pose proof (run_job_weight _ js _ _ _ _ Hj) as Hlt.
  rewrite (drain_fuel n (weight (js ++ new) σ1)) by lia.
  by destruct (drain _ (js ++ new) σ1) as [[σ2 ts'] rest].
Qed.

(** ** The request interceptor *)

Lemma truthy_Some tok : truthy (Some tok) = true ↔ tok ≠ "".
Proof.
  simpl. destruct (String.eqb_spec tok ""); simpl; split; congruence.
Qed.

Lemma request_interceptor_truthy tok c :
  tok ≠ "" → request_interceptor (Some tok) c = with_bearer tok c.
Proof.
  intros H%truthy_Some. unfold request_interceptor. by rewrite H.
Qed.

Lemma request_interceptor_falsy t c :
  truthy t = false → request_interceptor t c = c.
Proof. unfold request_interceptor. by intros ->. Qed.

Lemma url_request_interceptor t c : url (request_interceptor t c) = url c.
Proof. unfold request_interceptor. by destruct (truthy t). Qed.

Lemma retry_request_interceptor t c : _retry (request_interceptor t c) = _retry c.
Proof. unfold request_interceptor. by destruct (truthy t). Qed.

(** Replaying with the token that is in the cell: the interceptor has
    nothing to change. *)
Lemma request_interceptor_with_bearer tok c :
  request_interceptor (Some tok) (with_bearer tok c) = with_bearer tok c.
Proof.
  unfold request_interceptor. destruct (truthy (Some tok)); [|done].
  unfold with_bearer, set_header. simpl. by rewrite insert_insert_eq.
Qed.

(** C10: with a token in the cell the interceptor sets [Authorization] to
    the bearer form of that token, whatever the header held before, and
    touches nothing else; with an empty cell ([null], or the empty string,
    which JavaScript also takes for false) the config comes back as it was,
    an [Authorization] header of the caller's included. *)
Theorem request_interceptor_frame (t : option string) (c : config) :
  (∀ tok, t = Some tok → tok ≠ "" →
     headers (request_interceptor t c) !! "Authorization" = Some ("Bearer " +:+ tok)
     ∧ (∀ h, h ≠ "Authorization" →
          headers (request_interceptor t c) !! h = headers c !! h)
     ∧ url (request_interceptor t c) = url c
     ∧ method (request_interceptor t c) = method c
     ∧ body (request_interceptor t c) = body c
     ∧ _retry (request_interceptor t c) = _retry c)
  ∧ (t = None ∨ t = Some "" →
     request_interceptor t c = c
     ∧ headers (request_interceptor t c) !! "Authorization"
       = headers c !! "Authorization").
Proof.
  split.
  - intros tok -> Hne. rewrite request_interceptor_truthy by done.
    unfold with_bearer, set_header, bearer; simpl.
    split; [apply lookup_insert_eq|].
    split; [|done]. intros h Hh. by apply lookup_insert_ne.
  - intros [-> | ->]; by rewrite request_interceptor_falsy.
Qed.

Lemma request_interceptor_frame_witness :
  headers (request_interceptor (Some "T2")
             (set_header "Authorization" "Basic abc" (get "/rooms")))
    !! "Authorization" = Some "Bearer T2"
  ∧ request_interceptor (Some "")
      (set_header "Authorization" "Basic abc" (get "/rooms"))
    = set_header "Authorization" "Basic abc" (get "/rooms").
Proof.
  pose proof (request_interceptor_frame (Some "T2")
    (set_header "Authorization" "Basic abc" (get "/rooms"))) as [H1 _].
  pose proof (request_interceptor_frame (Some "")
    (set_header "Authorization" "Basic abc" (get "/rooms"))) as [_ H2].
  split.
  - apply (H1 "T2"); [reflexivity | discriminate].
  - apply H2. right; reflexivity.
Defined.

(** ** Single steps *)

Lemma microtasks_settle_caller id r σ :
  microtasks [JSettle (KCaller id) r] σ = (σ, [Settle id r]).
Proof. rewrite microtasks_cons. simpl. by rewrite microtasks_nil. Qed.

(** Line 76. *)
Lemma onRejected_passthrough σ c k e :
  status <$> response e ≠ Some 401%Z ∨ _retry c = true →
  onRejected c k e σ = (σ, [], [JSettle k (Err e)]).
Proof.
  intros H. unfold onRejected.
  destruct H as [H | ->].
  - by rewrite bool_decide_eq_false_2.
  - by rewrite andb_false_r.
Qed.

(** Lines 46-52. *)
Lemma onRejected_join σ c k e :
  status <$> response e = Some 401%Z → _retry c = false →
  isRefreshing σ = true →
  onRejected c k e σ =
  (set_failedQueue (failedQueue σ ++ [Waiter c k]) σ, [Join (Waiter c k)], []).
Proof.
  intros H1 H2 H3. unfold onRejected.
  by rewrite bool_decide_eq_true_2, H2, H3.
Qed.

(** Lines 55-61. *)
Lemma onRejected_trigger σ c k e :
  status <$> response e = Some 401%Z → _retry c = false →
  isRefreshing σ = false →
  onRejected c k e σ =
  (let '(σ', ts) := apiClient refresh_request (KRefresh (set_retry true c) k)
                      (set_isRefreshing true σ) in (σ', ts, [])).
Proof.
  intros H1 H2 H3. unfold onRejected.
  by rewrite bool_decide_eq_true_2, H2, H3.
Qed.

Lemma step_respond_ok_caller σ rid c id res :
  inflight σ !! rid = Some (c, KCaller id) →
  step σ (Respond rid (Ok res)) =
  (set_inflight (delete rid (inflight σ)) σ, [Settle id (Ok res)]).
Proof.
  intros H. unfold step. rewrite H. by rewrite microtasks_settle_caller.
Qed.

Lemma step_respond_passthrough_caller σ rid c id e :
  inflight σ !! rid = Some (c, KCaller id) →
  status <$> response e ≠ Some 401%Z ∨ _retry c = true →
  step σ (Respond rid (Err e)) =
  (set_inflight (delete rid (inflight σ)) σ, [Settle id (Err e)]).
Proof.
  intros H He. unfold step. rewrite H, onRejected_passthrough by done.
  by rewrite microtasks_settle_caller.
Qed.

Lemma step_respond_join σ rid c k e :
  inflight σ !! rid = Some (c, k) →
  status <$> response e = Some 401%Z → _retry c = false →
  isRefreshing σ = true →
  step σ (Respond rid (Err e)) =
  (set_failedQueue (failedQueue σ ++ [Waiter c k])
     (set_inflight (delete rid (inflight σ)) σ),
   [Join (Waiter c k)]).
Proof.
  intros H H1 H2 H3. unfold step. rewrite H, onRejected_join by done.
  by rewrite microtasks_nil.
Qed.

Lemma step_respond_trigger σ rid c k e :
  inflight σ !! rid = Some (c, k) →
  status <$> response e = Some 401%Z → _retry c = false →
  isRefreshing σ = false →
  step σ (Respond rid (Err e)) =
  apiClient refresh_request (KRefresh (set_retry true c) k)
    (set_isRefreshing true (set_inflight (delete rid (inflight σ)) σ)).
Proof.
  intros H H1 H2 H3. unfold step. rewrite H, onRejected_trigger by done.
  simpl. by rewrite microtasks_nil.
Qed.

(** ** Failures the interceptor lets through *)

(** C8: a failure whose status is not 401, and a 401 on a request already
    marked [_retry], leaves the error handler as the rejection it came in
    with: the state is the same, nothing is sent, nothing joins the queue.
    For a request made by a service module the whole turn consists of
    rejecting the caller's promise with that very error. *)
Theorem passthrough_unmodified (σ : state) (c : config) (k : cont) (e : error) :
  status <$> response e ≠ Some 401%Z ∨ _retry c = true →
  onRejected c k e σ = (σ, [], [JSettle k (Err e)])
  ∧ ∀ rid id, inflight σ !! rid = Some (c, KCaller id) →
      (step σ (Respond rid (Err e))).2 = [Settle id (Err e)]
      ∧ refresh_calls (step σ (Respond rid (Err e))).2 = []
      ∧ isRefreshing (step σ (Respond rid (Err e))).1 = isRefreshing σ
      ∧ failedQueue (step σ (Respond rid (Err e))).1 = failedQueue σ
      ∧ accessToken (step σ (Respond rid (Err e))).1 = accessToken σ.
Proof.
  intros He. split; [by apply onRejected_passthrough|].
  intros rid id Hin.
  by rewrite (step_respond_passthrough_caller _ _ _ _ _ Hin He).
Qed.

Lemma passthrough_unmodified_witness :
  let σ := (run init [SetToken (Some "T1"); Call (get "/rooms")]).1 in
  (step σ (Respond 0 (Err e500))).2 = [Settle 0 (Err e500)]
  ∧ accessToken (step σ (Respond 0 (Err e500))).1 = Some "T1".
Proof.
  intros σ.
  destruct (passthrough_unmodified σ
              (with_bearer "T1" (get "/rooms")) (KCaller 0) e500)
    as [_ H]; [left; discriminate|].
  destruct (H 0 0 eq_refl) as (H1 & _ & _ & _ & H2).
  split; [exact H1 | exact H2].
Defined.

(** C9: an error without a response has no status, so it is never taken
    for a 401: the handler rejects with it, in any state and whatever the
    token in the cell, and neither sends a refresh call nor queues the
    request. *)
Theorem no_response_passthrough (σ : state) (c : config) (k : cont) (e : error) :
  response e = None →
  onRejected c k e σ = (σ, [], [JSettle k (Err e)])
  ∧ ∀ rid id, inflight σ !! rid = Some (c, KCaller id) →
      (step σ (Respond rid (Err e))).2 = [Settle id (Err e)]
      ∧ refresh_calls (step σ (Respond rid (Err e))).2 = []
      ∧ joined (step σ (Respond rid (Err e))).2 = []
      ∧ isRefreshing (step σ (Respond rid (Err e))).1 = isRefreshing σ
      ∧ failedQueue (step σ (Respond rid (Err e))).1 = failedQueue σ.
Proof.
  intros He.
  assert (status <$> response e ≠ Some 401%Z ∨ _retry c = true) as Hp
    by (left; by rewrite He).
  split; [by apply onRejected_passthrough|].
  intros rid id Hin.
  by rewrite (step_respond_passthrough_caller _ _ _ _ _ Hin Hp).
Qed.

Lemma no_response_passthrough_witness :
  let σ := (run init [SetToken (Some "T1"); Call (get "/rooms")]).1 in
  (step σ (Respond 0 (Err network_error))).2 = [Settle 0 (Err network_error)].
Proof.
  intros σ.
  destruct (no_response_passthrough σ
              (with_bearer "T1" (get "/rooms")) (KCaller 0) network_error eq_refl)
    as [_ H].
  exact (proj1 (H 0 0 eq_refl)).
Defined.

(** ** The refresh call *)

(** The claim of C4 fails: with [T1] in the cell, the refresh call that a
    401 sets off leaves with [Authorization: Bearer T1]. *)
Lemma refresh_call_carries_bearer :
  let σ := (run init [SetToken (Some "T1"); Call (get "/rooms")]).1 in
  ∃ c, (step σ (Respond 0 (Err e401))).2 = [Send 1 c]
       ∧ url c = refresh_url
       ∧ headers c !! "Authorization" = Some "Bearer T1"
       ∧ headers c !! "Authorization" ≠ None.
Proof.
  intros σ. exists (with_bearer "T1" refresh_request).
  split; [vm_compute; reflexivity|].
  split; [reflexivity|].
  split; [reflexivity | discriminate].
Qed.

(** C4, amended: the refresh call is made through [apiClient] like any
    other, so it passes the request interceptor: it is the one request sent
    when an idle client meets a 401, it carries the token of the cell as a
    bearer credential when there is one, and no [Authorization] header only
    when the cell is empty. *)
Theorem refresh_call_intercepted (σ : state) (rid : nat) (c : config) (k : cont)
    (e : error) :
  inflight σ !! rid = Some (c, k) →
  status <$> response e = Some 401%Z → _retry c = false →
  isRefreshing σ = false →
  (step σ (Respond rid (Err e))).2
    = [Send (next_rid σ) (request_interceptor (accessToken σ) refresh_request)]
  ∧ isRefreshing (step σ (Respond rid (Err e))).1 = true
  ∧ headers (request_interceptor (accessToken σ) refresh_request) !! "Authorization"
    = (if truthy (accessToken σ) then bearer <$> accessToken σ else None).
Proof.
  intros Hin H401 Hr Hidle.
  rewrite (step_respond_trigger _ _ _ _ _ Hin H401 Hr Hidle). simpl.
  split; [done|]. split; [done|].
  unfold request_interceptor.
  destruct (truthy (accessToken σ)) eqn:Ht; [|done].
  destruct (accessToken σ) as [tok|]; [|done].
  simpl. apply lookup_insert_eq.
Qed.

Lemma refresh_call_intercepted_witness :
  let σ := (run init [SetToken (Some "T1"); Call (get "/rooms")]).1 in
  (step σ (Respond 0 (Err e401))).2
  = [Send 1 (request_interceptor (Some "T1") refresh_request)].
Proof.
  intros σ.
  refine (proj1 (refresh_call_intercepted σ 0
            (with_bearer "T1" (get "/rooms")) (KCaller 0) e401 _ _ _ _));
    reflexivity.
Defined.

(** ** Runs *)

Lemma run_cons σ ev evs :
  run σ (ev :: evs) =
  ((run (step σ ev).1 evs).1, (step σ ev).2 ++ (run (step σ ev).1 evs).2).
Proof.
  simpl. destruct (step σ ev) as [σ1 ts]. simpl.
  by destruct (run σ1 evs) as [σ2 ts'].
Qed.

Lemma run_app σ evs1 evs2 :
  run σ (evs1 ++ evs2) =
  ((run (run σ evs1).1 evs2).1, (run σ evs1).2 ++ (run (run σ evs1).1 evs2).2).
Proof.
  revert σ. induction evs1 as [|ev evs1 IH]; intros σ.
  - simpl. by destruct (run σ evs2).
  - rewrite <- app_comm_cons, !run_cons, IH. simpl. by rewrite app_assoc.
Qed.

Lemma reachable_run σ evs : reachable σ → reachable (run σ evs).1.
Proof.
  revert σ. induction evs as [|ev evs IH]; intros σ Hσ; [done|].
  rewrite run_cons. simpl. apply IH. by constructor.
Qed.

Lemma sends_app ts1 ts2 : sends (ts1 ++ ts2) = sends ts1 ++ sends ts2.
Proof. apply omap_app. Qed.

Lemma joined_app ts1 ts2 : joined (ts1 ++ ts2) = joined ts1 ++ joined ts2.
Proof. apply omap_app. Qed.

Lemma woken_app ts1 ts2 : woken (ts1 ++ ts2) = woken ts1 ++ woken ts2.
Proof. apply omap_app. Qed.

Lemma settles_app ts1 ts2 : settles (ts1 ++ ts2) = settles ts1 ++ settles ts2.
Proof. apply omap_app. Qed.

Lemma logouts_app ts1 ts2 : logouts (ts1 ++ ts2) = logouts ts1 + logouts ts2.
Proof. unfold logouts. by rewrite omap_app, length_app. Qed.

Lemma sends_joins ws : sends (map Join ws) = [].
Proof. by induction ws. Qed.

Lemma joined_joins ws : joined (map Join ws) = ws.
Proof. induction ws as [|w ws IH]; [done|]. simpl. by f_equal. Qed.

(** ** Requests never share an id *)

Lemma apiClient_fresh c k σ : fresh σ → fresh (apiClient c k σ).1.
Proof.
  intros H rid Hrid. simpl in *.
  rewrite lookup_insert_ne by lia. apply H. lia.
Qed.

Lemma run_job_fresh j σ : fresh σ → fresh (run_job j σ).1.1.
Proof.
  intros H.
  assert (∀ k r, fresh (settle k r σ).1.1) as Hsettle.
  { intros [id|orig k] [res|e]; simpl; try done.
    intros rid Hrid. simpl in *. rewrite lookup_insert_ne by lia. apply H. lia. }
  destruct j as [k r|p [token|e]]; simpl; [done | | done].
  by apply apiClient_fresh.
Qed.

Lemma drain_fresh fuel : ∀ js σ, fresh σ → fresh (drain fuel js σ).1.1.
Proof.
  induction fuel as [|n IH]; intros js σ H; [done|].
  destruct js as [|j js]; [done|]. simpl.
  pose proof (run_job_fresh j σ H) as Hj.
  destruct (run_job j σ) as [[σ1 ts] new]. simpl in Hj.
  specialize (IH (js ++ new) σ1 Hj).
  by destruct (drain n (js ++ new) σ1) as [[σ2 ts'] rest].
Qed.

Lemma onRejected_fresh c k e σ : fresh σ → fresh (onRejected c k e σ).1.1.
Proof.
  intros H. unfold onRejected.
  destruct (_ && _); [|done].
  destruct (isRefreshing σ); [done|].
  intros rid Hrid. simpl in *. rewrite lookup_insert_ne by lia. apply H. lia.
Qed.

Lemma step_fresh σ ev : fresh σ → fresh (step σ ev).1.
Proof.
  intros H. destruct ev as [c|rid r|t]; simpl.
  - intros rid Hrid. simpl in *. rewrite lookup_insert_ne by lia. apply H. lia.
  - destruct (inflight σ !! rid) as [[c k]|] eqn:Hin; [|done].
    assert (fresh (set_inflight (delete rid (inflight σ)) σ)) as H0.
    { intros rid' Hrid'. simpl in *.
      rewrite lookup_delete_None. right. by apply H. }
    destruct r as [res|e].
    + unfold microtasks.
      pose proof (drain_fresh (weight [JSettle k (Ok res)] (set_inflight (delete rid (inflight σ)) σ))
                    [JSettle k (Ok res)] _ H0) as Hd.
      destruct (drain _ _ _) as [[σ2 ts'] rest]. done.
    + pose proof (onRejected_fresh c k e _ H0) as H1.
      destruct (onRejected c k e _) as [[σ1 ts] js]. simpl in H1.
      unfold microtasks.
      pose proof (drain_fresh (weight js σ1) js _ H1) as Hd.
      destruct (drain _ _ _) as [[σ2 ts'] rest]. done.
  - done.
Qed.

Lemma reachable_fresh σ : reachable σ → fresh σ.
Proof.
  induction 1 as [|σ ev _ IH]; [done|]. by apply step_fresh.
Qed.

(** ** The queue is first in, first out *)

Lemma woken_wakes (q : list waiter) v : woken (map (λ p, Woken p v) q) = q.
Proof. induction q as [|p q IH]; [done|]. simpl. by f_equal. Qed.

Lemma joined_wakes (q : list waiter) v : joined (map (λ p, Woken p v) q) = [].
Proof. by induction q. Qed.

Lemma fifo_compose (q0 q1 q2 j1 j2 w1 w2 : list waiter) :
  q0 ++ j1 = w1 ++ q1 → q1 ++ j2 = w2 ++ q2 →
  q0 ++ (j1 ++ j2) = (w1 ++ w2) ++ q2.
Proof.
  intros H1 H2. by rewrite app_assoc, H1, <- app_assoc, H2, app_assoc.
Qed.

Lemma run_job_fifo j σ :
  failedQueue σ ++ joined (run_job j σ).1.2
  = woken (run_job j σ).1.2 ++ failedQueue (run_job j σ).1.1.
Proof.
  assert (∀ k r, failedQueue σ ++ joined (settle k r σ).1.2
                 = woken (settle k r σ).1.2 ++ failedQueue (settle k r σ).1.1)
    as Hsettle.
  { intros [id|orig k] [res|e]; simpl;
      rewrite ?joined_app, ?woken_app, ?joined_wakes, ?woken_wakes; simpl;
      by rewrite ?app_nil_r. }
  destruct j as [k r|p [token|e]]; simpl; [done | | done].
  by rewrite app_nil_r.
Qed.

Lemma drain_fifo fuel : ∀ js σ,
  failedQueue σ ++ joined (drain fuel js σ).1.2
  = woken (drain fuel js σ).1.2 ++ failedQueue (drain fuel js σ).1.1.
Proof.
  induction fuel as [|n IH]; intros js σ; [simpl; by rewrite app_nil_r|].
  destruct js as [|j js]; [simpl; by rewrite app_nil_r|]. simpl.
  pose proof (run_job_fifo j σ) as Hj.
  destruct (run_job j σ) as [[σ1 ts] new]. simpl in Hj.
  specialize (IH (js ++ new) σ1).
  destruct (drain n (js ++ new) σ1) as [[σ2 ts'] rest]. simpl in *.
  rewrite joined_app, woken_app. by eapply fifo_compose.
Qed.

Lemma onRejected_fifo c k e σ :
  failedQueue σ ++ joined (onRejected c k e σ).1.2
  = woken (onRejected c k e σ).1.2 ++ failedQueue (onRejected c k e σ).1.1.
Proof.
  unfold onRejected. destruct (_ && _); [|simpl; by rewrite app_nil_r].
  destruct (isRefreshing σ); simpl; [done | by rewrite app_nil_r].
Qed.

Lemma step_fifo σ ev :
  failedQueue σ ++ joined (step σ ev).2
  = woken (step σ ev).2 ++ failedQueue (step σ ev).1.
Proof.
  destruct ev as [c|rid r|t]; simpl; try by rewrite app_nil_r.
  destruct (inflight σ !! rid) as [[c k]|]; [|simpl; by rewrite app_nil_r].
  set (σ0 := set_inflight _ σ).
  assert (failedQueue σ = failedQueue σ0) as -> by done.
  destruct r as [res|e].
  - unfold microtasks.
    pose proof (drain_fifo (weight [JSettle k (Ok res)] σ0) [JSettle k (Ok res)] σ0) as Hd.
    by destruct (drain _ _ _) as [[σ2 ts'] rest].
  - pose proof (onRejected_fifo c k e σ0) as H1.
    destruct (onRejected c k e σ0) as [[σ1 ts] js]. simpl in H1.
    unfold microtasks.
    pose proof (drain_fifo (weight js σ1) js σ1) as Hd.
    destruct (drain _ _ _) as [[σ2 ts'] rest]. simpl in *.
    rewrite joined_app, woken_app. by eapply fifo_compose.
Qed.

(** ** A refresh that succeeds *)

Lemma replay_all_frame tok q : ∀ σ,
  accessToken (replay_all tok q σ) = accessToken σ
  ∧ isRefreshing (replay_all tok q σ) = isRefreshing σ
  ∧ failedQueue (replay_all tok q σ) = failedQueue σ
  ∧ next_caller (replay_all tok q σ) = next_caller σ
  ∧ next_rid (replay_all tok q σ) = next_rid σ + length q.
Proof.
  induction q as [|p q IH]; intros σ; simpl.
  - repeat split; lia.
  - destruct (IH (apiClient (with_bearer tok (w_request p)) (w_cont p) σ).1)
      as (H1 & H2 & H3 & H4 & H5).
    simpl in *. rewrite H1, H2, H3, H4, H5. repeat split; lia.
Qed.

Lemma replay_all_old tok q : ∀ σ rid,
  rid < next_rid σ → inflight (replay_all tok q σ) !! rid = inflight σ !! rid.
Proof.
  induction q as [|p q IH]; intros σ rid Hrid; [done|]. simpl.
  rewrite IH by (simpl; lia). simpl. apply lookup_insert_ne. lia.
Qed.

Lemma replay_all_new tok q : ∀ σ i p,
  q !! i = Some p →
  inflight (replay_all tok q σ) !! (next_rid σ + i)
  = Some (request_interceptor (accessToken σ) (with_bearer tok (w_request p)), w_cont p).
Proof.
  induction q as [|p0 q IH]; intros σ i p Hi; [done|]. simpl.
  destruct i as [|i]; simpl in Hi.
  - injection Hi as ->. rewrite replay_all_old by (simpl; lia). simpl.
    rewrite Nat.add_0_r. apply lookup_insert_eq.
  - specialize (IH (apiClient (with_bearer tok (w_request p0)) (w_cont p0) σ).1 i p Hi).
    simpl in IH. by rewrite Nat.add_succ_r.
Qed.

Lemma microtasks_resolve tok q : ∀ σ,
  microtasks (map (λ p, JWake p (Resolve (Some tok))) q) σ
  = (replay_all tok q σ,
     imap (λ i p, Send (next_rid σ + i)
                    (request_interceptor (accessToken σ) (with_bearer tok (w_request p)))) q).
Proof.
  induction q as [|p q IH]; intros σ.
  - simpl. apply microtasks_nil.
  - rewrite map_cons, microtasks_cons. simpl. rewrite app_nil_r, IH. simpl.
    rewrite Nat.add_0_r. do 2 f_equal.
    apply imap_ext. intros i x _. simpl. by rewrite Nat.add_succ_r.
Qed.

Lemma step_respond_refresh_ok σ rid c orig k res :
  inflight σ !! rid = Some (c, KRefresh orig k) →
  let tok := access (data res) in
  let σ1 := set_isRefreshing false
              (apiClient (with_bearer tok orig) k
                 (set_failedQueue []
                    (setAccessToken (Some tok)
                       (set_inflight (delete rid (inflight σ)) σ)))).1 in
  step σ (Respond rid (Ok res)) =
  (replay_all tok (failedQueue σ) σ1,
   map (λ p, Woken p (Resolve (Some tok))) (failedQueue σ)
   ++ Send (next_rid σ) (with_bearer tok orig)
   :: imap (λ i p, Send (S (next_rid σ) + i) (with_bearer tok (w_request p)))
        (failedQueue σ)).
Proof.
  intros Hin tok σ1. unfold step. rewrite Hin.
  rewrite microtasks_cons. simpl. rewrite microtasks_resolve. simpl.
  fold tok. rewrite request_interceptor_with_bearer.
  f_equal.
  - unfold σ1. simpl. by rewrite request_interceptor_with_bearer.
  - rewrite <- app_assoc. simpl. do 2 f_equal.
    apply imap_ext. intros i p _. simpl.
    by rewrite request_interceptor_with_bearer.
Qed.

Lemma sends_wakes (q : list waiter) v : sends (map (λ p, Woken p v) q) = [].
Proof. by induction q. Qed.

Lemma settles_wakes (q : list waiter) v : settles (map (λ p, Woken p v) q) = [].
Proof. by induction q. Qed.

Lemma logouts_wakes (q : list waiter) v : logouts (map (λ p, Woken p v) q) = 0.
Proof. by induction q. Qed.

Lemma imap_send_shift tok (l : list waiter) m :
  imap ((λ i p, Send (m + i) (with_bearer tok (w_request p))) ∘ S) l
  = imap (λ i p, Send (S m + i) (with_bearer tok (w_request p))) l.
Proof. apply imap_ext. intros i y _. simpl. by rewrite Nat.add_succ_r. Qed.

Lemma replays_bearer tok (l : list waiter) : ∀ m,
  Forall (λ x, headers x.2 !! "Authorization" = Some (bearer tok))
    (sends (imap (λ i p, Send (m + i) (with_bearer tok (w_request p))) l)).
Proof.
  induction l as [|p l IH]; intros m; simpl; [done|].
  constructor; [apply lookup_insert_eq|].
  rewrite imap_send_shift. apply IH.
Qed.

Lemma logouts_replays tok (l : list waiter) : ∀ m,
  logouts (imap (λ i p, Send (m + i) (with_bearer tok (w_request p))) l) = 0.
Proof.
  induction l as [|p l IH]; intros m; [done|]. simpl.
  rewrite imap_send_shift. apply IH.
Qed.

(** The success path, lines 59-65 and 49-52.  When the refresh call
    succeeds, the token of the response is stored in the cell;
    [processQueue] hands it to every waiter, in queue order; the request
    that set off the refresh and every queued request are sent again, each
    with [Authorization: Bearer] followed by the new token, and each tied
    to the promise its caller is waiting on; and the client is idle again
    with an empty queue.  No logout is signalled.  The answer to the replay
    of a queued request settles that promise when it is a success or an
    error other than a 401; a 401 does not (see the scenario of the
    waiter's replay further down). *)
Theorem refresh_success_replays (σ : state) (rid : nat) (c orig : config)
    (k : cont) (res : axios_response) :
  inflight σ !! rid = Some (c, KRefresh orig k) →
  let tok := access (data res) in
  let n := next_rid σ in
  let q := failedQueue σ in
  let σ' := (step σ (Respond rid (Ok res))).1 in
  let ts := (step σ (Respond rid (Ok res))).2 in
  accessToken σ' = Some tok
  ∧ isRefreshing σ' = false
  ∧ failedQueue σ' = []
  ∧ ts = map (λ p, Woken p (Resolve (Some tok))) q
         ++ Send n (with_bearer tok orig)
         :: imap (λ i p, Send (S n + i) (with_bearer tok (w_request p))) q
  ∧ Forall (λ x, headers x.2 !! "Authorization" = Some ("Bearer " +:+ tok)) (sends ts)
  ∧ logouts ts = 0
  ∧ inflight σ' !! n = Some (with_bearer tok orig, k)
  ∧ (∀ i p, q !! i = Some p →
       inflight σ' !! (S n + i) = Some (with_bearer tok (w_request p), w_cont p))
  ∧ (∀ i p id res', q !! i = Some p → w_cont p = KCaller id →
       (step σ' (Respond (S n + i) (Ok res'))).2 = [Settle id (Ok res')])
  ∧ (∀ i p id e, q !! i = Some p → w_cont p = KCaller id →
       status <$> response e ≠ Some 401%Z →
       (step σ' (Respond (S n + i) (Err e))).2 = [Settle id (Err e)]).
Proof.
  intros Hin tok n q σ' ts. subst σ' ts.
  rewrite (step_respond_refresh_ok _ _ _ _ _ res Hin). cbn [fst snd]. fold tok.
  set (σ1 := set_isRefreshing false _).
  destruct (replay_all_frame tok (failedQueue σ) σ1) as (F1 & F2 & F3 & _ & _).
  assert (∀ i p, q !! i = Some p →
            inflight (replay_all tok (failedQueue σ) σ1) !! (S n + i)
            = Some (with_bearer tok (w_request p), w_cont p)) as Hnew.
  { intros i p Hi.
    pose proof (replay_all_new tok _ σ1 i p Hi) as H. simpl in H.
    by rewrite request_interceptor_with_bearer in H. }
  split; [by rewrite F1|]. split; [by rewrite F2|]. split; [by rewrite F3|].
  split; [done|]. split; [|split; [|split; [|split; [done|split]]]].
  - rewrite sends_app, sends_wakes. simpl.
    constructor; [apply lookup_insert_eq | apply (replays_bearer tok _ (S n))].
  - rewrite logouts_app, logouts_wakes. simpl.
    apply (logouts_replays tok _ (S n)).
  - rewrite replay_all_old by (simpl; lia). simpl.
    rewrite request_interceptor_with_bearer. apply lookup_insert_eq.
  - intros i p id res' Hi Hk. specialize (Hnew i p Hi). rewrite Hk in Hnew.
    by rewrite (step_respond_ok_caller _ _ _ _ res' Hnew).
  - intros i p id e Hi Hk He. specialize (Hnew i p Hi). rewrite Hk in Hnew.
    by rewrite (step_respond_passthrough_caller _ _ _ _ e Hnew (or_introl He)).
Qed.

Lemma refresh_success_replays_witness :
  let σ := (run init [SetToken (Some "T1"); Call (get "/a"); Call (get "/b");
                      Respond 0 (Err e401); Respond 1 (Err e401)]).1 in
  accessToken (step σ (Respond 2 (ok "T2"))).1 = Some "T2"
  ∧ sends (step σ (Respond 2 (ok "T2"))).2
    = [(3, with_bearer "T2" (set_retry true (with_bearer "T1" (get "/a"))));
       (4, with_bearer "T2" (with_bearer "T1" (get "/b")))].
Proof.
  intros σ.
  destruct (refresh_success_replays σ 2 (with_bearer "T1" refresh_request)
              (set_retry true (with_bearer "T1" (get "/a"))) (KCaller 0)
              (Response 200 (Payload "T2" "")) eq_refl)
    as (H1 & _ & _ & H4 & _).
  split; [exact H1|].
  unfold ok. rewrite H4. reflexivity.
Defined.

(** ** A refresh that never settles *)

Lemma stuck_step σ ev id :
  stuck σ → parked id σ →
  stuck (step σ ev).1
  ∧ parked id (step σ ev).1
  ∧ logouts (step σ ev).2 = 0
  ∧ woken (step σ ev).2 = []
  ∧ (∀ r, (id, r) ∉ settles (step σ ev).2)
  ∧ (∃ ws, failedQueue (step σ ev).1 = failedQueue σ ++ ws).
Proof.
  intros [Href Hcallers] [Hid Hnone].
  assert (∀ rid, stuck (set_inflight (delete rid (inflight σ)) σ)
               ∧ parked id (set_inflight (delete rid (inflight σ)) σ)) as Hdel.
  { intros rid. split; split; simpl; try done.
    - intros rid' c' k' [_ H]%lookup_delete_Some. by eapply Hcallers.
    - intros rid' c' [_ H]%lookup_delete_Some. by eapply Hnone. }
  destruct ev as [c|rid r|t].
  - simpl. split; [|split; [|split; [done|split; [done|split]]]].
    + split; [done|]. simpl. intros rid c' k'.
      rewrite lookup_insert. case_decide.
      * intros [= <- <-]. by eexists.
      * apply Hcallers.
    + split; simpl; [lia|]. intros rid c'.
      rewrite lookup_insert. case_decide.
      * intros [= _ ?]. lia.
      * apply Hnone.
    + intros ?. apply not_elem_of_nil.
    + exists []. by rewrite app_nil_r.
  - destruct (inflight σ !! rid) as [[c k]|] eqn:Hin.
    2:{ unfold step. rewrite Hin. simpl.
        split_all; try done.
        - intros ?. apply not_elem_of_nil.
        - exists []. by rewrite app_nil_r. }
    destruct (Hcallers _ _ _ Hin) as [id' ->].
    assert (id' ≠ id) as Hne by (intros ->; by eapply Hnone).
    destruct (Hdel rid) as [Hs Hp].
    destruct r as [res|e].
    + rewrite (step_respond_ok_caller _ _ _ _ res Hin). simpl.
      split_all; try apply Hs; try apply Hp; try done.
      * intros ? [[= ? _] | []%elem_of_nil]%elem_of_cons. done.
      * exists []. by rewrite app_nil_r.
    + destruct (decide (status <$> response e = Some 401%Z)) as [H401|H401];
        [destruct (_retry c) eqn:Hretry|].
      * rewrite (step_respond_passthrough_caller _ _ _ _ e Hin (or_intror Hretry)).
        simpl. split_all; try apply Hs; try apply Hp; try done.
        -- intros ? [[= ? _] | []%elem_of_nil]%elem_of_cons. done.
        -- exists []. by rewrite app_nil_r.
      * rewrite (step_respond_join _ _ _ _ _ Hin H401 Hretry Href).
        simpl. split_all; try apply Hs; try apply Hp; try done.
        -- intros ?. apply not_elem_of_nil.
        -- by eexists.
      * rewrite (step_respond_passthrough_caller _ _ _ _ e Hin (or_introl H401)).
        simpl. split_all; try apply Hs; try apply Hp; try done.
        -- intros ? [[= ? _] | []%elem_of_nil]%elem_of_cons. done.
        -- exists []. by rewrite app_nil_r.
  - simpl. split_all; try done.
    + intros ?. apply not_elem_of_nil.
    + exists []. by rewrite app_nil_r.
Qed.

(** Once stuck, always stuck: no run of events signals a logout, settles a
    waiter, or settles a call whose request is parked in the queue. *)
Lemma stuck_run id evs : ∀ σ,
  stuck σ → parked id σ →
  stuck (run σ evs).1
  ∧ logouts (run σ evs).2 = 0
  ∧ woken (run σ evs).2 = []
  ∧ (∀ r, (id, r) ∉ settles (run σ evs).2)
  ∧ (∃ ws, failedQueue (run σ evs).1 = failedQueue σ ++ ws).
Proof.
  induction evs as [|ev evs IH]; intros σ Hs Hp.
  - simpl. split_all; try apply Hs; try done.
    + intros ?. apply not_elem_of_nil.
    + exists []. by rewrite app_nil_r.
  - destruct (stuck_step σ ev id Hs Hp) as (Hs1 & Hp1 & L1 & W1 & S1 & [ws1 Q1]).
    destruct (IH _ Hs1 Hp1) as (Hs2 & L2 & W2 & S2 & [ws2 Q2]).
    rewrite run_cons. cbn [fst snd].
    rewrite logouts_app, woken_app, settles_app, L1, L2, W1, W2.
    split_all; try apply Hs2; try done.
    + intros ? [?|?]%elem_of_app; [by eapply S1 | by eapply S2].
    + exists (ws1 ++ ws2). by rewrite Q2, Q1, app_assoc.
Qed.

Lemma stuck_empty σ : isRefreshing σ = true → inflight σ = ∅ → stuck σ.
Proof.
  intros H1 H2. split; [done|]. intros rid c k. by rewrite H2, lookup_empty.
Qed.

Lemma parked_empty id σ : id < next_caller σ → inflight σ = ∅ → parked id σ.
Proof.
  intros H1 H2. split; [done|]. intros rid c. by rewrite H2, lookup_empty.
Qed.

(** C3 on the code: request C gets a 401 with the client idle, and the
    refresh call gets a 401 in its turn.  The refresh call went through
    [apiClient], so its failure comes to the same error handler, which finds
    a 401 on a config without [_retry] while [isRefreshing] is set, and
    queues it.  Nothing is left on the wire: the token stays in the cell,
    no logout is signalled, the promise of C is not settled, and whatever
    happens afterwards none of that changes. *)
Theorem refresh_401_deadlock :
  let evs := [SetToken (Some "T1"); Call (get "/rooms");
              Respond 0 (Err e401); Respond 1 (Err e401)] in
  let σ := (run init evs).1 in
  accessToken σ = Some "T1"
  ∧ isRefreshing σ = true
  ∧ inflight σ = ∅
  ∧ failedQueue σ
    = [Waiter (with_bearer "T1" refresh_request)
         (KRefresh (set_retry true (with_bearer "T1" (get "/rooms"))) (KCaller 0))]
  ∧ settles (run init evs).2 = []
  ∧ logouts (run init evs).2 = 0
  ∧ ∀ future,
      logouts (run σ future).2 = 0
      ∧ (∀ r, (0, r) ∉ settles (run σ future).2)
      ∧ isRefreshing (run σ future).1 = true.
Proof.
  intros evs σ.
  assert (inflight σ = ∅) as Hempty by (vm_compute; reflexivity).
  split; [vm_compute; reflexivity|]. split; [reflexivity|].
  split; [done|]. split; [vm_compute; reflexivity|].
  split; [reflexivity|]. split; [reflexivity|].
  intros future.
  destruct (stuck_run 0 future σ) as ([H1 _] & H2 & _ & H4 & _).
  - by apply stuck_empty.
  - apply parked_empty; [vm_compute; lia | done].
  - done.
Qed.

(** C5 on the code: the same with a second request B waiting in the queue
    when the refresh call gets its 401.  The [catch] block is never
    entered: the cell keeps the token, B is not rejected, no logout is
    signalled, now or later. *)
Theorem refresh_401_nobody_rejected :
  let evs := [SetToken (Some "T1"); Call (get "/a"); Call (get "/b");
              Respond 0 (Err e401); Respond 1 (Err e401);
              Respond 2 (Err e401)] in
  let σ := (run init evs).1 in
  accessToken σ = Some "T1"
  ∧ isRefreshing σ = true
  ∧ inflight σ = ∅
  ∧ map (λ p, url (w_request p)) (failedQueue σ) = ["/b"; refresh_url]
  ∧ settles (run init evs).2 = []
  ∧ woken (run init evs).2 = []
  ∧ logouts (run init evs).2 = 0
  ∧ ∀ future,
      logouts (run σ future).2 = 0
      ∧ woken (run σ future).2 = []
      ∧ (∀ r, (0, r) ∉ settles (run σ future).2)
      ∧ (∀ r, (1, r) ∉ settles (run σ future).2).
Proof.
  intros evs σ.
  assert (inflight σ = ∅) as Hempty by (vm_compute; reflexivity).
  split; [vm_compute; reflexivity|]. split; [reflexivity|].
  split; [done|]. split; [vm_compute; reflexivity|].
  split; [reflexivity|]. split; [reflexivity|]. split; [reflexivity|].
  intros future.
  assert (stuck σ) as Hs by (by apply stuck_empty).
  destruct (stuck_run 0 future σ) as (_ & H2 & H3 & H4 & _);
    [done | apply parked_empty; [vm_compute; lia | done] |].
  destruct (stuck_run 1 future σ) as (_ & _ & _ & H5 & _);
    [done | apply parked_empty; [vm_compute; lia | done] |].
  done.
Qed.

(** ** A refresh call that is rejected *)

Lemma queued_callers_cons p q :
  queued_callers (p :: q) =
  match caller_id (w_cont p) with
  | Some id => id :: queued_callers q
  | None => queued_callers q
  end.
Proof. unfold queued_callers. simpl. by destruct (caller_id _). Qed.

Lemma microtasks_rejects e (q : list waiter) : ∀ js σ,
  Forall (λ p, is_Some (caller_id (w_cont p))) q →
  microtasks (map (λ p, JWake p (Reject e)) q ++ js) σ
  = ((microtasks js σ).1,
     map (λ id, Settle id (Err e)) (queued_callers q) ++ (microtasks js σ).2).
Proof.
  induction q as [|p q IH]; intros js σ Hq.
  - simpl. by destruct (microtasks js σ).
  - apply Forall_cons in Hq as [[id Hid] Hq].
    rewrite queued_callers_cons, Hid, map_cons, <- app_comm_cons, microtasks_cons.
    destruct (w_cont p) as [id'|] eqn:Hk; simpl in Hid; [|done].
    injection Hid as ->. simpl. rewrite Hk. simpl. by rewrite app_nil_r, IH.
Qed.

Lemma queued_callers_length (q : list waiter) :
  Forall (λ p, is_Some (caller_id (w_cont p))) q →
  length (queued_callers q) = length q.
Proof.
  induction 1 as [|p q [id Hid] _ IH]; [done|].
  rewrite queued_callers_cons, Hid. simpl. by rewrite IH.
Qed.

Lemma logouts_settles r (ids : list nat) : logouts (map (λ id, Settle id r) ids) = 0.
Proof. by induction ids. Qed.

Lemma sends_settles r (ids : list nat) : sends (map (λ id, Settle id r) ids) = [].
Proof. by induction ids. Qed.

Lemma woken_settles r (ids : list nat) : woken (map (λ id, Settle id r) ids) = [].
Proof. by induction ids. Qed.

(** The trace of a [catch] block and of the rejections it causes. *)
Section rejection_trace.
Variables (e : error) (q : list waiter) (ids : list nat) (id0 : nat).

Let ts : list action :=
  map (λ p, Woken p (Reject e)) q
  ++ Logout :: map (λ id, Settle id (Err e)) ids ++ [Settle id0 (Err e)].

Lemma rejection_trace_woken : woken ts = q.
Proof.
  unfold ts. rewrite woken_app, woken_wakes.
  change (woken (Logout :: ?l)) with (woken l).
  rewrite woken_app, woken_settles. simpl. by rewrite app_nil_r.
Qed.

Lemma rejection_trace_logouts : logouts ts = 1.
Proof.
  unfold ts. rewrite logouts_app, logouts_wakes.
  change (logouts (Logout :: ?l)) with (S (logouts l)).
  by rewrite logouts_app, logouts_settles.
Qed.

Lemma rejection_trace_sends : sends ts = [].
Proof.
  unfold ts. rewrite sends_app, sends_wakes.
  change (sends (Logout :: ?l)) with (sends l).
  by rewrite sends_app, sends_settles.
Qed.

Lemma rejection_trace_take : take (length q) ts = map (λ p, Woken p (Reject e)) q.
Proof. unfold ts. apply take_app_length'. by rewrite length_map. Qed.

Lemma rejection_trace_settled : settles ts = (λ id, (id, Err e)) <$> (ids ++ [id0]).
Proof.
  unfold ts. rewrite settles_app, settles_wakes.
  change (settles (Logout :: ?l)) with (settles l).
  rewrite settles_app, fmap_app. simpl. f_equal.
  clear. induction ids as [|id ids' IH]; [done|]. simpl. by f_equal.
Qed.
End rejection_trace.

Lemma step_respond_refresh_err σ rid c orig id0 e :
  inflight σ !! rid = Some (c, KRefresh orig (KCaller id0)) →
  status <$> response e ≠ Some 401%Z ∨ _retry c = true →
  Forall (λ p, is_Some (caller_id (w_cont p))) (failedQueue σ) →
  step σ (Respond rid (Err e)) =
  (set_isRefreshing false
     (setAccessToken None
        (set_failedQueue [] (set_inflight (delete rid (inflight σ)) σ))),
   map (λ p, Woken p (Reject e)) (failedQueue σ)
   ++ Logout
   :: map (λ id, Settle id (Err e)) (queued_callers (failedQueue σ))
   ++ [Settle id0 (Err e)]).
Proof.
  intros Hin He Hq.
  unfold step. rewrite Hin, onRejected_passthrough by done.
  rewrite microtasks_cons. simpl.
  rewrite microtasks_rejects by done.
  rewrite microtasks_settle_caller. simpl.
  by rewrite <- app_assoc.
Qed.

(** The [catch] block, when it is reached: the refresh call fails with
    anything the error handler lets through (no response, a status other
    than 401).  The queued promises are rejected in queue order, the cell
    is emptied, one logout is signalled however long the queue, the callers
    of the queued requests and of the request that set off the refresh are
    rejected, each once, and the client is idle. *)
Theorem refresh_rejected_logs_out_once (σ : state) (rid : nat) (c orig : config)
    (id0 : nat) (e : error) :
  inflight σ !! rid = Some (c, KRefresh orig (KCaller id0)) →
  status <$> response e ≠ Some 401%Z ∨ _retry c = true →
  Forall (λ p, is_Some (caller_id (w_cont p))) (failedQueue σ) →
  let q := failedQueue σ in
  let σ' := (step σ (Respond rid (Err e))).1 in
  let ts := (step σ (Respond rid (Err e))).2 in
  accessToken σ' = None
  ∧ isRefreshing σ' = false
  ∧ failedQueue σ' = []
  ∧ take (length q) ts = map (λ p, Woken p (Reject e)) q
  ∧ woken ts = q
  ∧ logouts ts = 1
  ∧ sends ts = []
  ∧ settles ts ≡ₚ (λ id, (id, Err e)) <$> (queued_callers q ++ [id0])
  ∧ length (queued_callers q) = length q.
Proof.
  intros Hin He Hq q σ' ts. subst σ' ts.
  rewrite (step_respond_refresh_err _ _ _ _ _ _ Hin He Hq). cbn [fst snd].
  fold q. split_all; try done.
  - apply rejection_trace_take.
  - apply rejection_trace_woken.
  - apply rejection_trace_logouts.
  - apply rejection_trace_sends.
  - by rewrite rejection_trace_settled.
  - by apply queued_callers_length.
Qed.

Lemma refresh_rejected_logs_out_once_witness :
  let σ := (run init [SetToken (Some "T1"); Call (get "/a"); Call (get "/b");
                      Call (get "/c"); Respond 0 (Err e401);
                      Respond 1 (Err e401); Respond 2 (Err e401)]).1 in
  accessToken (step σ (Respond 3 (Err network_error))).1 = None
  ∧ logouts (step σ (Respond 3 (Err network_error))).2 = 1
  ∧ settles (step σ (Respond 3 (Err network_error))).2
    ≡ₚ [(1, Err network_error); (2, Err network_error); (0, Err network_error)].
Proof.
  intros σ.
  destruct (refresh_rejected_logs_out_once σ 3 (with_bearer "T1" refresh_request)
              (set_retry true (with_bearer "T1" (get "/a"))) 0 network_error)
    as (H1 & _ & _ & _ & _ & H6 & _ & H8 & _).
  - reflexivity.
  - left. discriminate.
  - repeat constructor; by eexists.
  - split; [exact H1|]. split; [exact H6 | exact H8].
Defined.

(** ** What the reachable states look like *)

Lemma caller_id_Some k : is_Some (caller_id k) → ∃ id, k = KCaller id.
Proof. destruct k; [by eexists | by intros [? [=]]]. Qed.

Lemma callers_only_delete rid σ :
  callers_only σ → callers_only (set_inflight (delete rid (inflight σ)) σ).
Proof.
  intros H rid' c k Hl. simpl in Hl.
  apply lookup_delete_Some in Hl as [_ Hl]. by eapply H.
Qed.

Lemma callers_only_apiClient c id σ :
  callers_only σ → callers_only (apiClient c (KCaller id) σ).1.
Proof.
  intros H rid c' k. simpl. rewrite lookup_insert. case_decide.
  - intros [= _ <-]. by eexists.
  - apply H.
Qed.

Lemma replay_all_callers tok q : ∀ σ,
  callers_only σ →
  Forall (λ p, is_Some (caller_id (w_cont p))) q →
  callers_only (replay_all tok q σ).
Proof.
  induction q as [|p q IH]; intros σ Hσ Hq; [done|].
  apply Forall_cons in Hq as [[id Hid]%caller_id_Some Hq]. simpl.
  apply IH; [|done]. rewrite Hid. by apply callers_only_apiClient.
Qed.

Lemma refreshing_at_delete rid0 rid c id σ :
  inflight σ !! rid = Some (c, KCaller id) →
  refreshing_at rid0 σ →
  refreshing_at rid0 (set_inflight (delete rid (inflight σ)) σ).
Proof.
  intros Hin ((c0 & orig & id0 & H0 & Hm) & Hothers & Hq).
  split; [|split; [|done]].
  - exists c0, orig, id0. simpl. rewrite lookup_delete_ne; [done|].
    intros ->. by simplify_eq.
  - intros rid' c' k' Hne Hl. simpl in Hl.
    apply lookup_delete_Some in Hl as [_ Hl]. by eapply Hothers.
Qed.

Lemma refreshing_at_callers_only rid σ :
  refreshing_at rid σ →
  callers_only (set_inflight (delete rid (inflight σ)) σ).
Proof.
  intros (_ & Hothers & _) rid' c k Hl. simpl in Hl.
  apply lookup_delete_Some in Hl as [Hne Hl]. by eapply Hothers.
Qed.

Lemma wf_step σ ev : wf σ → wf (step σ ev).1.
Proof.
  intros [Hfresh Hwf]. split; [by apply step_fresh|].
  destruct ev as [c|rid r|t]; [| |done].
  - (* a new call *)
    simpl. destruct (isRefreshing σ).
    + destruct Hwf as [[rid0 ((c0 & orig & id0 & H0 & Hm) & Hothers & Hq)] | Hc].
      * left. exists rid0. split; [|split; [|done]].
        -- exists c0, orig, id0. simpl. rewrite lookup_insert_ne; [done|].
           intros <-. rewrite Hfresh in H0; [done|lia].
        -- intros rid' c' k' Hne. simpl. rewrite lookup_insert. case_decide.
           ++ intros [= _ <-]. by eexists.
           ++ by apply Hothers.
      * right. by apply (callers_only_apiClient _ _ (set_next_caller _ σ)).
    + destruct Hwf as [Hq Hc]. split; [done|].
      by apply (callers_only_apiClient _ _ (set_next_caller _ σ)).
  - (* a response *)
    destruct (inflight σ !! rid) as [[c k]|] eqn:Hin;
      [|unfold step; by rewrite Hin].
    destruct k as [id|orig k].
    + (* to a request of a service module *)
      assert (wf (set_inflight (delete rid (inflight σ)) σ)) as [_ Hdel].
      { split; [intros rid' Hrid'; simpl; rewrite lookup_delete_None; right;
                by apply Hfresh|].
        simpl. destruct (isRefreshing σ).
        - destruct Hwf as [[rid0 H0] | Hc].
          + left. exists rid0. by eapply refreshing_at_delete.
          + right. by apply callers_only_delete.
        - destruct Hwf as [Hq Hc]. split; [done | by apply callers_only_delete]. }
      destruct r as [res|e];
        [by rewrite (step_respond_ok_caller _ _ _ _ res Hin)|].
      destruct (decide (status <$> response e = Some 401%Z)) as [H401|H401];
        [destruct (_retry c) eqn:Hretry|].
      * by rewrite (step_respond_passthrough_caller _ _ _ _ e Hin (or_intror Hretry)).
      * destruct (isRefreshing σ) eqn:Href.
        -- rewrite (step_respond_join _ _ _ _ _ Hin H401 Hretry Href). simpl.
           rewrite Href. simpl in Hdel. rewrite Href in Hdel.
           destruct Hdel as [[rid0 (H0 & Hothers & Hq & Hu)] | Hc]; [left|by right].
           exists rid0. split; [done|]. split; [done|]. simpl.
           split; apply Forall_app; (split; [done|]); repeat constructor; [|done].
           by eexists.
        -- rewrite (step_respond_trigger _ _ _ _ _ Hin H401 Hretry Href). simpl.
           simpl in Hdel. rewrite Href in Hdel. destruct Hdel as [Hq Hc].
           left. exists (next_rid σ). split; [|split].
           ++ eexists _, _, _. simpl.
              split; [apply lookup_insert_eq|].
              split; [apply retry_request_interceptor | done].
           ++ intros rid' c' k' Hne. simpl. rewrite lookup_insert_ne by done.
              apply Hc.
           ++ simpl. simpl in Hq. by rewrite Hq.
      * by rewrite (step_respond_passthrough_caller _ _ _ _ e Hin (or_introl H401)).
    + (* to the refresh call *)
      destruct (isRefreshing σ) eqn:Href.
      2:{ destruct Hwf as [_ Hc]. by destruct (Hc _ _ _ Hin) as [? [=]]. }
      destruct Hwf as [[rid0 Hat] | Hc];
        [|by destruct (Hc _ _ _ Hin) as [? [=]]].
      assert (rid = rid0) as <-.
      { destruct Hat as (_ & Hothers & _). destruct (decide (rid = rid0)); [done|].
        by destruct (Hothers _ _ _ n Hin) as [? [=]]. }
      pose proof (refreshing_at_callers_only _ _ Hat) as Hdel.
      destruct Hat as ((c0 & orig0 & id0 & H0 & _) & Hothers & Hq & _).
      rewrite Hin in H0. injection H0 as <- <- ->.
      destruct r as [res|e].
      * rewrite (step_respond_refresh_ok _ _ _ _ _ res Hin). cbn [fst].
        set (σ1 := set_isRefreshing false _).
        destruct (replay_all_frame (access (data res)) (failedQueue σ) σ1)
          as (_ & F2 & F3 & _).
        rewrite F2, F3. simpl. split; [done|].
        apply replay_all_callers; [|done].
        by apply (callers_only_apiClient _ _
                    (set_failedQueue [] (setAccessToken _ (set_inflight _ σ)))).
      * destruct (decide (status <$> response e = Some 401%Z)) as [H401|H401];
          [destruct (_retry c) eqn:Hretry|].
        -- by rewrite (step_respond_refresh_err _ _ _ _ _ e Hin (or_intror Hretry) Hq).
        -- rewrite (step_respond_join _ _ _ _ _ Hin H401 Hretry Href). simpl.
           rewrite Href. by right.
        -- by rewrite (step_respond_refresh_err _ _ _ _ _ e Hin (or_introl H401) Hq).
Qed.

Lemma reachable_wf σ : reachable σ → wf σ.
Proof.
  induction 1 as [|σ ev _ IH]; [|by apply wf_step].
  split; [done|]. simpl. split; [done|]. intros rid c k Hl. simpl in Hl.
  by rewrite lookup_empty in Hl.
Qed.

(** An idle client has nobody waiting. *)
Lemma reachable_idle_queue σ :
  reachable σ → isRefreshing σ = false → failedQueue σ = [].
Proof. intros [_ H]%reachable_wf Hidle. rewrite Hidle in H. apply H. Qed.

(** When the refresh call is on the wire, it was set off by a service
    module's request, the flag is set, and only such requests wait. *)
Lemma reachable_refresh_call σ rid c orig k :
  reachable σ →
  inflight σ !! rid = Some (c, KRefresh orig k) →
  isRefreshing σ = true
  ∧ (∃ id, k = KCaller id)
  ∧ Forall (λ p, is_Some (caller_id (w_cont p))) (failedQueue σ)
  ∧ Forall (λ p, _retry (w_request p) = false) (failedQueue σ)
  ∧ _retry c = false
  ∧ _retry orig = true.
Proof.
  intros [_ H]%reachable_wf Hin.
  destruct (isRefreshing σ).
  - destruct H as [[rid0 ((c0 & orig0 & id0 & H0 & Hc0 & Hm) & Hothers & Hq & Hu)] | Hc].
    + destruct (decide (rid = rid0)) as [->|Hne].
      * rewrite Hin in H0. injection H0 as <- <- ->.
        split; [done|]. split; [by eexists|done].
      * by destruct (Hothers _ _ _ Hne Hin) as [? [=]].
    + by destruct (Hc _ _ _ Hin) as [? [=]].
  - destruct H as [_ Hc]. by destruct (Hc _ _ _ Hin) as [? [=]].
Qed.

(** There is never more than one refresh call on the wire. *)
Lemma at_most_one_refresh_call σ rid1 rid2 c1 c2 orig1 orig2 k1 k2 :
  reachable σ →
  inflight σ !! rid1 = Some (c1, KRefresh orig1 k1) →
  inflight σ !! rid2 = Some (c2, KRefresh orig2 k2) →
  rid1 = rid2.
Proof.
  intros [_ H]%reachable_wf H1 H2.
  destruct (isRefreshing σ).
  - destruct H as [[rid0 (_ & Hothers & _)] | Hc].
    + destruct (decide (rid1 = rid0)) as [->|Hne1];
        [|by destruct (Hothers _ _ _ Hne1 H1) as [? [=]]].
      destruct (decide (rid2 = rid0)) as [->|Hne2]; [done|].
      by destruct (Hothers _ _ _ Hne2 H2) as [? [=]].
    + by destruct (Hc _ _ _ H1) as [? [=]].
  - destruct H as [_ Hc]. by destruct (Hc _ _ _ H1) as [? [=]].
Qed.

(** ** How often a request is sent again *)

(** The state after a refresh call has succeeded. *)
Lemma refresh_ok_state σ rid c orig k res :
  inflight σ !! rid = Some (c, KRefresh orig k) →
  let tok := access (data res) in
  let σ' := (step σ (Respond rid (Ok res))).1 in
  accessToken σ' = Some tok
  ∧ isRefreshing σ' = false
  ∧ failedQueue σ' = []
  ∧ next_rid σ' = S (next_rid σ) + length (failedQueue σ)
  ∧ inflight σ' !! next_rid σ = Some (with_bearer tok orig, k)
  ∧ (∀ i p, failedQueue σ !! i = Some p →
       inflight σ' !! (S (next_rid σ) + i)
       = Some (with_bearer tok (w_request p), w_cont p)).
Proof.
  intros Hin tok σ'. subst σ'.
  rewrite (step_respond_refresh_ok _ _ _ _ _ res Hin). cbn [fst snd]. fold tok.
  set (σ1 := set_isRefreshing false _).
  destruct (replay_all_frame tok (failedQueue σ) σ1) as (F1 & F2 & F3 & _ & F5).
  split; [by rewrite F1|]. split; [by rewrite F2|]. split; [by rewrite F3|].
  split; [by rewrite F5|]. split.
  - rewrite replay_all_old by (simpl; lia). simpl.
    rewrite request_interceptor_with_bearer. apply lookup_insert_eq.
  - intros i p Hi.
    pose proof (replay_all_new tok _ σ1 i p Hi) as H. simpl in H.
    by rewrite request_interceptor_with_bearer in H.
Qed.

(** X5: the request that set off the refresh is retried once and no more.
    In every reachable state, when the refresh call succeeds, that request
    is sent again marked [_retry], tied to its caller's promise; if the
    replay is answered 401 in its turn, the whole turn consists of
    rejecting the caller's promise with that error: no second refresh, no
    further replay. *)
Lemma trigger_replayed_once σ rid c orig k res e :
  reachable σ →
  inflight σ !! rid = Some (c, KRefresh orig k) →
  status <$> response e = Some 401%Z →
  let tok := access (data res) in
  let σ' := (step σ (Respond rid (Ok res))).1 in
  ∃ id, inflight σ' !! next_rid σ = Some (with_bearer tok orig, KCaller id)
        ∧ _retry (with_bearer tok orig) = true
        ∧ (step σ' (Respond (next_rid σ) (Err e))).2 = [Settle id (Err e)].
Proof.
  intros Hreach Hin H401 tok σ'.
  destruct (reachable_refresh_call _ _ _ _ _ Hreach Hin)
    as (_ & [id ->] & _ & _ & _ & Hm).
  destruct (refresh_ok_state _ _ _ _ _ res Hin) as (_ & _ & _ & _ & Hn & _).
  fold tok σ' in Hn. exists id. split; [done|]. split; [done|].
  by rewrite (step_respond_passthrough_caller _ _ _ _ e Hn (or_intror Hm)).
Qed.

Lemma trigger_replayed_once_witness :
  let σ := (run init [SetToken (Some "T1"); Call (get "/a");
                      Respond 0 (Err e401)]).1 in
  ∃ id, (step (step σ (Respond 1 (ok "T2"))).1 (Respond 2 (Err e401))).2
        = [Settle id (Err e401)].
Proof.
  intros σ.
  destruct (trigger_replayed_once σ 1 (with_bearer "T1" refresh_request)
              (set_retry true (with_bearer "T1" (get "/a"))) (KCaller 0)
              (Response 200 (Payload "T2" "")) e401)
    as (id & _ & _ & H).
  - apply (reachable_run init [SetToken (Some "T1"); Call (get "/a");
                               Respond 0 (Err e401)]).
    constructor.
  - reflexivity.
  - reflexivity.
  - exists id. exact H.
Defined.

(** X6: a request that waited in the queue is sent again without the
    [_retry] mark (lines 46-52 never set it).  In every reachable state,
    when the refresh call succeeds, the replay of each queued request is on
    the wire unmarked, tied to the promise of its waiter; if that replay is
    answered 401, its caller is not rejected: the turn sends a new refresh
    call, carrying the new token, and sets [isRefreshing] again. *)
Lemma joiner_replayed_unmarked σ rid c orig k res i p e :
  reachable σ →
  inflight σ !! rid = Some (c, KRefresh orig k) →
  failedQueue σ !! i = Some p →
  status <$> response e = Some 401%Z →
  let tok := access (data res) in
  let σ' := (step σ (Respond rid (Ok res))).1 in
  inflight σ' !! (S (next_rid σ) + i) = Some (with_bearer tok (w_request p), w_cont p)
  ∧ _retry (with_bearer tok (w_request p)) = false
  ∧ (step σ' (Respond (S (next_rid σ) + i) (Err e))).2
    = [Send (next_rid σ') (request_interceptor (Some tok) refresh_request)]
  ∧ isRefreshing (step σ' (Respond (S (next_rid σ) + i) (Err e))).1 = true.
Proof.
  intros Hreach Hin Hi H401 tok σ'.
  destruct (reachable_refresh_call _ _ _ _ _ Hreach Hin)
    as (_ & _ & _ & Hu & _).
  destruct (refresh_ok_state _ _ _ _ _ res Hin) as (Ht & Hidle & _ & _ & _ & Hnew).
  fold tok σ' in Ht, Hidle, Hnew. specialize (Hnew i p Hi).
  assert (_retry (with_bearer tok (w_request p)) = false) as Hretry.
  { rewrite Forall_forall in Hu. simpl. apply Hu. by eapply list_elem_of_lookup_2. }
  split; [done|]. split; [done|].
  rewrite (step_respond_trigger _ _ _ _ _ Hnew H401 Hretry Hidle). simpl.
  by rewrite Ht.
Qed.

Lemma joiner_replayed_unmarked_witness :
  let σ := (run init [SetToken (Some "T1"); Call (get "/a"); Call (get "/b");
                      Respond 0 (Err e401); Respond 1 (Err e401)]).1 in
  (step (step σ (Respond 2 (ok "T2"))).1 (Respond 4 (Err e401))).2
  = [Send 5 (request_interceptor (Some "T2") refresh_request)].
Proof.
  intros σ.
  destruct (joiner_replayed_unmarked σ 2 (with_bearer "T1" refresh_request)
              (set_retry true (with_bearer "T1" (get "/a"))) (KCaller 0)
              (Response 200 (Payload "T2" "")) 0
              (Waiter (with_bearer "T1" (get "/b")) (KCaller 1)) e401)
    as (_ & _ & H & _).
  - apply (reachable_run init [SetToken (Some "T1"); Call (get "/a");
                               Call (get "/b"); Respond 0 (Err e401);
                               Respond 1 (Err e401)]).
    constructor.
  - reflexivity.
  - reflexivity.
  - reflexivity.
  - exact H.
Defined.

(** C2 on the code: B joins the refresh that A set off.  Only A is marked
    [_retry] (line 55 comes after the [return] of the queueing branch), so
    the replay of B is sent unmarked.  When that replay gets a 401, B is
    not rejected: it sets off a second refresh and is sent a third time;
    the replay of A, in the same position, is rejected at once. *)
Theorem joined_request_retried_again :
  let σ := (run init [SetToken (Some "T1"); Call (get "/a"); Call (get "/b");
                      Respond 0 (Err e401); Respond 1 (Err e401);
                      Respond 2 (ok "T2")]).1 in
  inflight σ !! 3 = Some (with_bearer "T2" (set_retry true (with_bearer "T1" (get "/a"))),
                          KCaller 0)
  ∧ inflight σ !! 4 = Some (with_bearer "T2" (with_bearer "T1" (get "/b")), KCaller 1)
  ∧ _retry (with_bearer "T2" (with_bearer "T1" (get "/b"))) = false
  ∧ (step σ (Respond 3 (Err e401))).2 = [Settle 0 (Err e401)]
  ∧ (step σ (Respond 4 (Err e401))).2 = [Send 5 (with_bearer "T2" refresh_request)]
  ∧ sent_urls (run init [SetToken (Some "T1"); Call (get "/a"); Call (get "/b");
                         Respond 0 (Err e401); Respond 1 (Err e401);
                         Respond 2 (ok "T2"); Respond 4 (Err e401);
                         Respond 5 (ok "T3")]).2
    = ["/a"; "/b"; refresh_url; "/a"; "/b"; refresh_url; "/b"].
Proof.
  intros σ.
  split; [vm_compute; reflexivity|]. split; [vm_compute; reflexivity|].
  split; [reflexivity|]. split; [vm_compute; reflexivity|].
  split; vm_compute; reflexivity.
Qed.

(** C6 on the code: B waits in the queue while A's refresh is under way.
    The refresh succeeds with T2: the cell holds T2, both requests are sent
    again with [Bearer T2], the queue is empty and the client idle, as the
    claim says.  The answer to B's replay is delivered to B when it is a
    success or a 500.  When it is a 401 it is not: B's replay was sent
    unmarked (lines 46-52 never set [_retry]), so the handler takes the
    401 for a first failure, settles nothing and sets off a second refresh.
    What B receives in the end is the error of that refresh call, or the
    answer to a third dispatch, never the answer to its replay; the replay
    of A, which line 55 marked, hands its 401 to A at once. *)
Theorem waiter_replay_401_not_delivered :
  let before := (run init [SetToken (Some "T1"); Call (get "/a"); Call (get "/b");
                           Respond 0 (Err e401); Respond 1 (Err e401)]).1 in
  let σ := (step before (Respond 2 (ok "T2"))).1 in
  failedQueue before = [Waiter (with_bearer "T1" (get "/b")) (KCaller 1)]
  ∧ accessToken σ = Some "T2"
  ∧ isRefreshing σ = false
  ∧ failedQueue σ = []
  ∧ sends (step before (Respond 2 (ok "T2"))).2
    = [(3, with_bearer "T2" (set_retry true (with_bearer "T1" (get "/a"))));
       (4, with_bearer "T2" (with_bearer "T1" (get "/b")))]
  ∧ inflight σ !! 4 = Some (with_bearer "T2" (with_bearer "T1" (get "/b")), KCaller 1)
  ∧ (step σ (Respond 4 (ok "rooms"))).2 = [Settle 1 (ok "rooms")]
  ∧ (step σ (Respond 4 (Err e500))).2 = [Settle 1 (Err e500)]
  ∧ (step σ (Respond 3 (Err e401))).2 = [Settle 0 (Err e401)]
  ∧ (step σ (Respond 4 (Err e401))).2 = [Send 5 (with_bearer "T2" refresh_request)]
  ∧ settles (step σ (Respond 4 (Err e401))).2 = []
  ∧ isRefreshing (step σ (Respond 4 (Err e401))).1 = true
  ∧ settles (run σ [Respond 4 (Err e401); Respond 5 (Err e500)]).2 = [(1, Err e500)]
  ∧ settles (run σ [Respond 4 (Err e401); Respond 5 (ok "T3")]).2 = []
  ∧ settles (run σ [Respond 4 (Err e401); Respond 5 (ok "T3");
                    Respond 6 (ok "rooms")]).2 = [(1, ok "rooms")].
Proof.
  intros before σ. split_all; vm_compute; reflexivity.
Qed.

(** ** Single flight *)

Lemma waiters_of_cons (m : gmap nat (config * cont)) rid rids :
  waiters_of m (rid :: rids) =
  match m !! rid with
  | Some x => Waiter x.1 x.2 :: waiters_of m rids
  | None => waiters_of m rids
  end.
Proof. unfold waiters_of. simpl. by destruct (m !! rid). Qed.

Lemma waiters_of_ext (m m' : gmap nat (config * cont)) rids :
  (∀ rid, rid ∈ rids → m' !! rid = m !! rid) →
  waiters_of m' rids = waiters_of m rids.
Proof.
  induction rids as [|rid rids IH]; intros H; [done|].
  rewrite !waiters_of_cons, H by set_solver. rewrite IH; [done|].
  intros rid' Hrid'. apply H. set_solver.
Qed.

(** While a refresh is under way, 401s on requests not yet retried only
    lengthen the queue. *)
Lemma run_joins (rs : list (nat * error)) : ∀ σ,
  isRefreshing σ = true →
  NoDup rs.*1 →
  Forall (λ x, (∃ c k, inflight σ !! x.1 = Some (c, k) ∧ _retry c = false)
               ∧ status <$> response x.2 = Some 401%Z) rs →
  (run σ (map (λ x, Respond x.1 (Err x.2)) rs)).2
    = map Join (waiters_of (inflight σ) rs.*1)
  ∧ failedQueue (run σ (map (λ x, Respond x.1 (Err x.2)) rs)).1
    = failedQueue σ ++ waiters_of (inflight σ) rs.*1
  ∧ isRefreshing (run σ (map (λ x, Respond x.1 (Err x.2)) rs)).1 = true
  ∧ accessToken (run σ (map (λ x, Respond x.1 (Err x.2)) rs)).1 = accessToken σ.
Proof.
  induction rs as [|[rid e] rs IH]; intros σ Href Hnd Hall.
  - simpl. by rewrite app_nil_r.
  - rewrite fmap_cons in Hnd. apply NoDup_cons in Hnd as [Hnotin Hnd].
    apply Forall_cons in Hall as [[(c & k & Hin & Hretry) H401] Hall].
    simpl in Hin, H401, Hnotin.
    rewrite map_cons, run_cons. cbn [fst snd].
    rewrite (step_respond_join _ _ _ _ _ Hin H401 Hretry Href). cbn [fst snd].
    set (σ1 := set_failedQueue _ _).
    assert (∀ rid', rid' ∈ rs.*1 → inflight σ1 !! rid' = inflight σ !! rid') as Hsame.
    { intros rid' Hrid'. simpl. apply lookup_delete_ne. by intros ->. }
    destruct (IH σ1) as (IH1 & IH2 & IH3 & IH4); [done | done | |].
    { apply Forall_forall. intros [rid' e'] Hx.
      rewrite Forall_forall in Hall. destruct (Hall _ Hx) as [Hl He].
      split; [|done]. simpl. rewrite lookup_delete_ne; [done|].
      intros ->. apply Hnotin. apply list_elem_of_fmap. by exists (rid', e'). }
    rewrite IH1, IH2, IH3, IH4, (waiters_of_ext _ _ _ Hsame).
    rewrite fmap_cons, waiters_of_cons. simpl. rewrite Hin. simpl.
    by rewrite <- app_assoc.
Qed.

Lemma waiters_of_length (m : gmap nat (config * cont)) rids :
  Forall (λ rid, is_Some (m !! rid)) rids →
  length (waiters_of m rids) = length rids.
Proof.
  induction 1 as [|rid rids [x Hx] _ IH]; [done|].
  rewrite waiters_of_cons, Hx. simpl. by rewrite IH.
Qed.

(** C1: in an idle client, let two or more requests that are on the wire
    and were not retried before all come back with 401, one after the
    other, before anything else happens.  Exactly one request is sent in
    the whole run, it is the call to the refresh endpoint, and it is sent
    for the first failure; every later failure finds [isRefreshing] set and
    pushes its request on [failedQueue]. *)
Theorem single_flight (σ : state) (rs : list (nat * error)) :
  reachable σ →
  isRefreshing σ = false →
  NoDup rs.*1 →
  Forall (λ x, (∃ c k, inflight σ !! x.1 = Some (c, k) ∧ _retry c = false)
               ∧ status <$> response x.2 = Some 401%Z) rs →
  2 ≤ length rs →
  let evs := map (λ x, Respond x.1 (Err x.2)) rs in
  sends (run σ evs).2
    = [(next_rid σ, request_interceptor (accessToken σ) refresh_request)]
  ∧ length (refresh_calls (run σ evs).2) = 1
  ∧ joined (run σ evs).2 = waiters_of (inflight σ) (tail rs.*1)
  ∧ length (joined (run σ evs).2) = length rs - 1
  ∧ failedQueue (run σ evs).1 = waiters_of (inflight σ) (tail rs.*1)
  ∧ isRefreshing (run σ evs).1 = true.
Proof.
  intros Hreach Hidle Hnd Hall Hlen evs. subst evs.
  pose proof (reachable_idle_queue _ Hreach Hidle) as Hempty.
  destruct rs as [|[rid e] rs]; [simpl in Hlen; lia|].
  rewrite fmap_cons in Hnd. apply NoDup_cons in Hnd as [Hnotin Hnd].
  apply Forall_cons in Hall as [[(c & k & Hin & Hretry) H401] Hall].
  simpl in Hin, H401, Hnotin.
  rewrite map_cons, run_cons. cbn [fst snd].
  rewrite (step_respond_trigger _ _ _ _ _ Hin H401 Hretry Hidle).
  set (σ1 := (apiClient _ _ _).1).
  assert (∀ rid', rid' ∈ rs.*1 → inflight σ1 !! rid' = inflight σ !! rid') as Hsame.
  { intros rid' Hrid'. simpl.
    apply list_elem_of_fmap in Hrid' as [[r' e'] [-> Hx]].
    rewrite Forall_forall in Hall.
    destruct (Hall _ Hx) as [(c' & k' & Hin' & _) _]. simpl in *.
    rewrite lookup_insert_ne.
    - apply lookup_delete_ne. intros ->. apply Hnotin.
      apply list_elem_of_fmap. by exists (r', e').
    - intros <-. rewrite (reachable_fresh _ Hreach (next_rid σ)) in Hin'; [done|lia]. }
  destruct (run_joins rs σ1) as (R1 & R2 & R3 & R4); [done | done | |].
  { apply Forall_forall. intros [rid' e'] Hx.
    rewrite Forall_forall in Hall. destruct (Hall _ Hx) as [Hl He].
    split; [|done]. rewrite Hsame; [done|].
    apply list_elem_of_fmap. by exists (rid', e'). }
  rewrite R1, R2, R3, (waiters_of_ext _ _ _ Hsame).
  assert (failedQueue σ1 = []) as -> by done.
  unfold refresh_calls. simpl apiClient. cbn [fst snd tail fmap list_fmap].
  rewrite !sends_app, !joined_app, sends_joins, joined_joins. simpl.
  split; [done|]. split.
  { rewrite filter_cons_True; [done|]. simpl. by rewrite url_request_interceptor. }
  split; [done|]. split; [|done].
  rewrite waiters_of_length, length_fmap; [lia|].
  apply Forall_forall. intros rid' Hrid'.
  apply list_elem_of_fmap in Hrid' as [[r' e'] [-> Hx]].
  rewrite Forall_forall in Hall.
  destruct (Hall _ Hx) as [(c' & k' & Hin' & _) _]. by eexists.
Qed.

Lemma single_flight_witness :
  let σ := (run init [SetToken (Some "T1"); Call (get "/a"); Call (get "/b");
                      Call (get "/c")]).1 in
  let evs := [Respond 0 (Err e401); Respond 1 (Err e401); Respond 2 (Err e401)] in
  sends (run σ evs).2 = [(3, with_bearer "T1" refresh_request)]
  ∧ length (refresh_calls (run σ evs).2) = 1
  ∧ length (joined (run σ evs).2) = 2.
Proof.
  intros σ evs.
  destruct (single_flight σ [(0, e401); (1, e401); (2, e401)])
    as (H1 & H2 & _ & H4 & _).
  - apply (reachable_run init [SetToken (Some "T1"); Call (get "/a");
                               Call (get "/b"); Call (get "/c")]).
    constructor.
  - reflexivity.
  - by apply (bool_decide_unpack (NoDup [0; 1; 2])).
  - repeat constructor; simpl; eauto.
  - simpl. lia.
  - split; [exact H1|]. split; [exact H2 | exact H4].
Defined.

(** ** One refresh operation, start to end *)

Lemma sends_replays_configs tok (l : list waiter) : ∀ m,
  (sends (imap (λ i p, Send (m + i) (with_bearer tok (w_request p))) l)).*2
  = map (λ p, with_bearer tok (w_request p)) l.
Proof.
  induction l as [|p l IH]; intros m; [done|]. simpl. f_equal.
  rewrite imap_send_shift. apply IH.
Qed.

Lemma woken_replays tok (l : list waiter) : ∀ m,
  woken (imap (λ i p, Send (m + i) (with_bearer tok (w_request p))) l) = [].
Proof.
  induction l as [|p l IH]; intros m; [done|]. simpl.
  rewrite imap_send_shift. apply IH.
Qed.

(** In every reachable state, a 401 for the refresh call itself parks the
    whole operation: the call is queued behind the waiters it should
    release, and from then on no logout is signalled and no waiter is
    settled. *)
Lemma refresh_401_always_deadlocks σ rid c orig k e id :
  reachable σ →
  inflight σ !! rid = Some (c, KRefresh orig k) →
  status <$> response e = Some 401%Z →
  parked id (step σ (Respond rid (Err e))).1 →
  (step σ (Respond rid (Err e))).2 = [Join (Waiter c (KRefresh orig k))]
  ∧ accessToken (step σ (Respond rid (Err e))).1 = accessToken σ
  ∧ failedQueue (step σ (Respond rid (Err e))).1
    = failedQueue σ ++ [Waiter c (KRefresh orig k)]
  ∧ ∀ future,
      logouts (run (step σ (Respond rid (Err e))).1 future).2 = 0
      ∧ woken (run (step σ (Respond rid (Err e))).1 future).2 = []
      ∧ (∀ r, (id, r) ∉ settles (run (step σ (Respond rid (Err e))).1 future).2)
      ∧ isRefreshing (run (step σ (Respond rid (Err e))).1 future).1 = true.
Proof.
  intros Hreach Hin H401.
  destruct (reachable_refresh_call _ _ _ _ _ Hreach Hin)
    as (Href & _ & _ & _ & Hretry & _).
  rewrite (step_respond_join _ _ _ _ _ Hin H401 Hretry Href). cbn [fst snd].
  intros Hparked. split_all; try done.
  intros future.
  set (σ' := set_failedQueue _ _) in *.
  assert (stuck σ') as Hstuck.
  { split; [done|]. simpl.
    pose proof (reachable_wf _ Hreach) as [_ Hwf]. rewrite Href in Hwf.
    intros rid' c' k' Hl. apply lookup_delete_Some in Hl as [Hne Hl].
    apply caller_id_Some.
    destruct Hwf as [[rid0 (_ & Hothers & _)] | Hc].
    - destruct (decide (rid = rid0)) as [<-|Hne0]; [by eapply Hothers|].
      by destruct (Hothers _ _ _ Hne0 Hin) as [? [=]].
    - by eapply Hc. }
  destruct (stuck_run id future σ' Hstuck Hparked) as ([H1 _] & H2 & H3 & H4 & _).
  done.
Qed.

(** C7: the waiters of a refresh operation are settled in the order in
    which they joined.  A waiter's continuation is the [resolve]/[reject]
    pair that line 48 pushes on [failedQueue].  Over any run, from any
    state, the waiters settled by [processQueue] so far, followed by those
    still queued, are the waiters queued at the start followed by those
    pushed since, in that order.  And when the refresh call comes back
    (with anything the handler lets through), the turn begins by settling
    exactly the queue, front to back: on success every entry is resolved
    with the new token, and the replays leave in queue order; on failure
    every entry is rejected with the error of the refresh call. *)
Theorem waiters_settled_in_join_order (σ : state) :
  (∀ evs,
     failedQueue σ ++ joined (run σ evs).2
     = woken (run σ evs).2 ++ failedQueue (run σ evs).1)
  ∧ (∀ rid c orig k res,
       inflight σ !! rid = Some (c, KRefresh orig k) →
       woken (step σ (Respond rid (Ok res))).2 = failedQueue σ
       ∧ tail (sends (step σ (Respond rid (Ok res))).2).*2
         = map (λ p, with_bearer (access (data res)) (w_request p)) (failedQueue σ)
       ∧ take (length (failedQueue σ)) (step σ (Respond rid (Ok res))).2
         = map (λ p, Woken p (Resolve (Some (access (data res))))) (failedQueue σ))
  ∧ (∀ rid c orig k e,
       reachable σ →
       inflight σ !! rid = Some (c, KRefresh orig k) →
       status <$> response e ≠ Some 401%Z →
       woken (step σ (Respond rid (Err e))).2 = failedQueue σ
       ∧ take (length (failedQueue σ)) (step σ (Respond rid (Err e))).2
         = map (λ p, Woken p (Reject e)) (failedQueue σ)).
Proof.
  split; [|split].
  - intros evs. revert σ. induction evs as [|ev evs IH]; intros σ.
    + simpl. by rewrite app_nil_r.
    + rewrite run_cons. cbn [fst snd]. rewrite joined_app, woken_app.
      eapply fifo_compose; [apply step_fifo | apply IH].
  - intros rid c orig k res Hin.
    rewrite (step_respond_refresh_ok _ _ _ _ _ res Hin). cbn [fst snd].
    rewrite woken_app, sends_app, woken_wakes, sends_wakes.
    change (woken (Send ?n ?x :: ?l)) with (woken l).
    change (sends (Send ?n ?x :: ?l)) with ((n, x) :: sends l).
    rewrite (woken_replays _ _ (S (next_rid σ))), app_nil_r. split; [done|].
    split; [simpl; apply (sends_replays_configs _ _ (S (next_rid σ)))|].
    apply take_app_length'. by rewrite length_map.
  - intros rid c orig k e Hreach Hin He.
    destruct (reachable_refresh_call _ _ _ _ _ Hreach Hin) as (_ & [id0 ->] & Hq & _).
    rewrite (step_respond_refresh_err _ _ _ _ _ e Hin (or_introl He) Hq).
    cbn [fst snd].
    by rewrite rejection_trace_woken, rejection_trace_take.
Qed.

Lemma waiters_settled_in_join_order_witness :
  let σ := (run init [SetToken (Some "T1"); Call (get "/a"); Call (get "/b");
                      Call (get "/c"); Respond 0 (Err e401);
                      Respond 2 (Err e401); Respond 1 (Err e401)]).1 in
  map (λ p, url (w_request p)) (failedQueue σ) = ["/c"; "/b"]
  ∧ map url (tail (sends (step σ (Respond 3 (ok "T2"))).2).*2) = ["/c"; "/b"]
  ∧ map (λ p, url (w_request p)) (woken (step σ (Respond 3 (Err e500))).2)
    = ["/c"; "/b"].
Proof.
  intros σ.
  destruct (waiters_settled_in_join_order σ) as (_ & Hok & Herr).
  destruct (Hok 3 (with_bearer "T1" refresh_request)
              (set_retry true (with_bearer "T1" (get "/a"))) (KCaller 0)
              (Response 200 (Payload "T2" "")) eq_refl) as (_ & H2 & _).
  destruct (Herr 3 (with_bearer "T1" refresh_request)
              (set_retry true (with_bearer "T1" (get "/a"))) (KCaller 0) e500)
    as (H3 & _).
  - apply (reachable_run init [SetToken (Some "T1"); Call (get "/a"); Call (get "/b");
                      Call (get "/c"); Respond 0 (Err e401);
                      Respond 2 (Err e401); Respond 1 (Err e401)]).
    constructor.
  - reflexivity.
  - discriminate.
  - split; [reflexivity|]. split.
    + unfold ok. rewrite H2. reflexivity.
    + rewrite H3. reflexivity.
Defined.

(** ** Every turn of a reachable client *)

Lemma step_turn σ ev : reachable σ → turn σ ev (step σ ev).
Proof.
  intros Hreach. destruct ev as [c|rid r|t]; [apply turn_call| |apply turn_set].
  destruct (inflight σ !! rid) as [[c k]|] eqn:Hin.
  2:{ unfold step. rewrite Hin. by apply turn_stray. }
  destruct k as [id|orig k].
  - destruct r as [res|e].
    { rewrite (step_respond_ok_caller _ _ _ _ res Hin).
      apply (turn_deliver _ _ c); [done | intros ? [=]]. }
    destruct (decide (status <$> response e = Some 401%Z)) as [H401|H401];
      [destruct (_retry c) eqn:Hretry|].
    + rewrite (step_respond_passthrough_caller _ _ _ _ e Hin (or_intror Hretry)).
      apply (turn_deliver _ _ c); [done|]. intros ? [= <-]. by right.
    + destruct (isRefreshing σ) eqn:Href.
      * rewrite (step_respond_join _ _ _ _ _ Hin H401 Hretry Href).
        by apply turn_join.
      * rewrite (step_respond_trigger _ _ _ _ _ Hin H401 Hretry Href).
        by apply turn_trigger.
    + rewrite (step_respond_passthrough_caller _ _ _ _ e Hin (or_introl H401)).
      apply (turn_deliver _ _ c); [done|]. intros ? [= <-]. by left.
  - destruct (reachable_refresh_call _ _ _ _ _ Hreach Hin)
      as (Href & [id ->] & Hq & _ & Hretry & _).
    destruct r as [res|e].
    { rewrite (step_respond_refresh_ok _ _ _ _ _ res Hin).
      by apply (turn_refreshed _ _ c). }
    destruct (decide (status <$> response e = Some 401%Z)) as [H401|H401].
    + rewrite (step_respond_join _ _ _ _ _ Hin H401 Hretry Href).
      by apply turn_join.
    + rewrite (step_respond_refresh_err _ _ _ _ _ e Hin (or_introl H401) Hq).
      by apply (turn_refresh_failed _ _ c orig).
Qed.

(** ** No call is lost *)

Lemma perm_shuffle (a b c d : list nat) : a ++ b ++ c ++ d ≡ₚ (a ++ b ++ d) ++ c.
Proof. rewrite (Permutation_app_comm c d). by rewrite !(assoc (++)). Qed.

Lemma settled_app ts1 ts2 : settled (ts1 ++ ts2) = settled ts1 ++ settled ts2.
Proof. unfold settled. by rewrite settles_app, fmap_app. Qed.

Lemma settled_wakes (q : list waiter) v : settled (map (λ p, Woken p v) q) = [].
Proof. unfold settled. by rewrite settles_wakes. Qed.

Lemma job_owner_wakes (q : list waiter) v :
  job_owner <$> map (λ p, JWake p v) q = (λ p, owner (w_cont p)) <$> q.
Proof. induction q as [|p q IH]; [done|]. simpl. by f_equal. Qed.

Lemma apiClient_pending c k σ :
  fresh σ → pending (apiClient c k σ).1 ≡ₚ owner k :: pending σ.
Proof.
  intros Hfresh. unfold pending, on_wire, queued. simpl.
  rewrite map_to_list_insert by (apply Hfresh; lia). done.
Qed.

Lemma apiClient_next_caller c k σ :
  next_caller (apiClient c k σ).1 = next_caller σ.
Proof. done. Qed.

Lemma settle_pending k r σ :
  fresh σ →
  settled (settle k r σ).1.2 ++ pending (settle k r σ).1.1
    ++ (job_owner <$> (settle k r σ).2)
  ≡ₚ owner k :: pending σ.
Proof.
  intros Hfresh. destruct k as [id|orig k]; [simpl; by rewrite app_nil_r|].
  destruct r as [res|e]; simpl.
  - rewrite settled_app, settled_wakes, job_owner_wakes. simpl.
    unfold pending, on_wire, queued. simpl.
    rewrite map_to_list_insert by (apply Hfresh; lia). simpl.
    by rewrite app_nil_r.
  - rewrite settled_app, settled_wakes, fmap_app, job_owner_wakes. simpl.
    unfold pending, on_wire, queued. simpl. rewrite app_nil_r.
    by rewrite (comm (++) _ [owner k]), (assoc (++)), (comm (++) _ [owner k]).
Qed.

Lemma run_job_pending j σ :
  fresh σ →
  settled (run_job j σ).1.2 ++ pending (run_job j σ).1.1
    ++ (job_owner <$> (run_job j σ).2)
  ≡ₚ job_owner j :: pending σ.
Proof.
  intros Hfresh. destruct j as [k r|p [token|e]]; simpl.
  - by apply settle_pending.
  - rewrite app_nil_r. by apply apiClient_pending.
  - by apply settle_pending.
Qed.

Lemma settle_next_caller k r σ : next_caller (settle k r σ).1.1 = next_caller σ.
Proof. by destruct k as [id|orig k], r as [res|e]. Qed.

Lemma run_job_next_caller j σ : next_caller (run_job j σ).1.1 = next_caller σ.
Proof.
  destruct j as [k r|p [token|e]]; simpl; [apply settle_next_caller | done |].
  apply settle_next_caller.
Qed.

Lemma drain_pending fuel : ∀ js σ,
  fresh σ →
  settled (drain fuel js σ).1.2 ++ pending (drain fuel js σ).1.1
    ++ (job_owner <$> (drain fuel js σ).2)
  ≡ₚ pending σ ++ (job_owner <$> js)
  ∧ next_caller (drain fuel js σ).1.1 = next_caller σ.
Proof.
  induction fuel as [|n IH]; intros js σ Hfresh; [done|].
  destruct js as [|j js]; [done|]. simpl.
  pose proof (run_job_pending j σ Hfresh) as Hj.
  pose proof (run_job_fresh j σ Hfresh) as Hf.
  pose proof (run_job_next_caller j σ) as Hn.
  destruct (run_job j σ) as [[σ1 ts] new]. simpl in Hj, Hf, Hn.
  destruct (IH (js ++ new) σ1 Hf) as [IH1 IH2].
  destruct (drain n (js ++ new) σ1) as [[σ2 ts'] rest]. simpl in *.
  split; [|congruence].
  rewrite settled_app, <- (assoc (++)), IH1, fmap_app.
  rewrite perm_shuffle, Hj. simpl.
  by rewrite <- Permutation_middle.
Qed.

Lemma microtasks_pending js σ :
  fresh σ →
  settled (microtasks js σ).2 ++ pending (microtasks js σ).1
  ≡ₚ pending σ ++ (job_owner <$> js)
  ∧ next_caller (microtasks js σ).1 = next_caller σ.
Proof.
  intros Hfresh. unfold microtasks.
  destruct (drain_pending (weight js σ) js σ Hfresh) as [H1 H2].
  pose proof (microtasks_complete js σ) as Hc.
  destruct (drain _ js σ) as [[σ2 ts'] rest]. simpl in *. subst rest.
  split; [|done]. by rewrite app_nil_r in H1.
Qed.

Lemma onRejected_pending c k e σ :
  fresh σ →
  pending (onRejected c k e σ).1.1 ++ (job_owner <$> (onRejected c k e σ).2)
  ≡ₚ owner k :: pending σ
  ∧ settled (onRejected c k e σ).1.2 = []
  ∧ next_caller (onRejected c k e σ).1.1 = next_caller σ.
Proof.
  intros Hfresh. unfold onRejected.
  destruct (_ && _); [|simpl; split; [|done]; by rewrite <- Permutation_cons_append].
  destruct (isRefreshing σ); simpl.
  - split; [|done]. unfold pending, on_wire, queued. simpl.
    rewrite app_nil_r, fmap_app. simpl.
    by rewrite (assoc (++)), <- Permutation_cons_append.
  - split; [|done]. rewrite app_nil_r.
    unfold pending, on_wire, queued. simpl.
    rewrite map_to_list_insert by (apply Hfresh; lia). done.
Qed.

(** One turn: the calls settled in it and the calls pending after it are
    the calls pending before it, plus the call made in it, if any. *)
Lemma step_pending σ ev :
  fresh σ →
  settled (step σ ev).2 ++ pending (step σ ev).1
  ≡ₚ pending σ ++ seq (next_caller σ) (next_caller (step σ ev).1 - next_caller σ).
Proof.
  intros Hfresh. destruct ev as [c|rid r|t].
  - pose proof (apiClient_pending c (KCaller (next_caller σ))
                  (set_next_caller (S (next_caller σ)) σ) Hfresh) as H.
    unfold step.
    destruct (apiClient c _ _) as [σ1 ts] eqn:Hc.
    assert (ts = [Send (next_rid σ) (request_interceptor (accessToken σ) c)]
            ∧ next_caller σ1 = S (next_caller σ)) as [-> Hn].
    { unfold apiClient in Hc. by injection Hc as <- <-. }
    cbn [fst snd] in *. rewrite Hn.
    replace (S (next_caller σ) - next_caller σ) with 1 by lia.
    simpl. rewrite H. unfold pending at 1. simpl. fold (pending σ).
    by rewrite <- Permutation_cons_append.
  - unfold step. destruct (inflight σ !! rid) as [[c k]|] eqn:Hin.
    2:{ simpl. by rewrite Nat.sub_diag, app_nil_r. }
    set (σ0 := set_inflight (delete rid (inflight σ)) σ).
    assert (fresh σ0) as Hf0.
    { intros rid' Hrid'. simpl. rewrite lookup_delete_None. right. by apply Hfresh. }
    assert (owner k :: pending σ0 ≡ₚ pending σ) as Hdel.
    { unfold pending, on_wire, queued. simpl.
      rewrite <- (map_to_list_delete (inflight σ) rid (c, k) Hin). done. }
    destruct r as [res|e].
    + destruct (microtasks_pending [JSettle k (Ok res)] σ0 Hf0) as [H1 H2].
      destruct (microtasks _ σ0) as [σ2 ts']. simpl in *.
      rewrite H2, Nat.sub_diag, app_nil_r, H1. simpl.
      by rewrite <- Permutation_cons_append.
    + destruct (onRejected_pending c k e σ0 Hf0) as (H1 & H2 & H3).
      pose proof (onRejected_fresh c k e σ0 Hf0) as Hf1.
      destruct (onRejected c k e σ0) as [[σ1 ts] js]. simpl in H1, H2, H3, Hf1.
      destruct (microtasks_pending js σ1 Hf1) as [H4 H5].
      destruct (microtasks js σ1) as [σ2 ts']. simpl in *.
      rewrite H5, H3, Nat.sub_diag, app_nil_r, settled_app, H2. simpl.
      by rewrite H4, H1.
  - simpl. by rewrite Nat.sub_diag, app_nil_r.
Qed.


Lemma step_next_caller σ ev : fresh σ → next_caller σ ≤ next_caller (step σ ev).1.
Proof.
  intros Hfresh. destruct ev as [c|rid r|t]; [simpl; lia| |simpl; lia].
  unfold step. destruct (inflight σ !! rid) as [[c k]|] eqn:Hin; [|done].
  set (σ0 := set_inflight (delete rid (inflight σ)) σ).
  assert (fresh σ0) as Hf0.
  { intros rid' Hrid'. simpl. rewrite lookup_delete_None. right. by apply Hfresh. }
  destruct r as [res|e].
  - destruct (microtasks_pending [JSettle k (Ok res)] σ0 Hf0) as [_ H2].
    destruct (microtasks _ σ0) as [σ2 ts']. simpl in *. lia.
  - destruct (onRejected_pending c k e σ0 Hf0) as (_ & _ & H3).
    pose proof (onRejected_fresh c k e σ0 Hf0) as Hf1.
    destruct (onRejected c k e σ0) as [[σ1 ts] js]. simpl in H3, Hf1.
    destruct (microtasks_pending js σ1 Hf1) as [_ H5].
    destruct (microtasks js σ1) as [σ2 ts']. simpl in *. lia.
Qed.

(** The calls made so far are the calls settled so far and the calls still
    pending. *)
Lemma accounted_step (done : list nat) σ ev :
  fresh σ →
  done ++ pending σ ≡ₚ seq 0 (next_caller σ) →
  (done ++ settled (step σ ev).2) ++ pending (step σ ev).1
  ≡ₚ seq 0 (next_caller (step σ ev).1).
Proof.
  intros Hfresh Hinv.
  pose proof (step_next_caller σ ev Hfresh) as Hle.
  rewrite <- (assoc (++)), step_pending, (assoc (++)), Hinv by done.
  rewrite <- seq_app. f_equiv. lia.
Qed.

Lemma reachable_accounted σ :
  reachable σ → ∃ done, done ++ pending σ ≡ₚ seq 0 (next_caller σ).
Proof.
  induction 1 as [|σ ev Hreach [done IH]]; [by exists []|].
  exists (done ++ settled (step σ ev).2).
  apply accounted_step; [by apply reachable_fresh | done].
Qed.

(** In a reachable state no call waits in two places, and every waiting
    call has been made. *)
Lemma reachable_pending σ :
  reachable σ →
  NoDup (pending σ) ∧ ∀ id, id ∈ pending σ → id < next_caller σ.
Proof.
  intros [done Hd]%reachable_accounted.
  assert (NoDup (done ++ pending σ)) as Hnd by (rewrite Hd; apply NoDup_seq).
  split; [by apply NoDup_app in Hnd as (_ & _ & ?)|].
  intros id Hid.
  assert (id ∈ seq 0 (next_caller σ)) as Hin
    by (rewrite <- Hd; apply elem_of_app; by right).
  apply elem_of_seq in Hin. lia.
Qed.

Lemma run_accounted evs : ∀ (done : list nat) σ,
  fresh σ →
  done ++ pending σ ≡ₚ seq 0 (next_caller σ) →
  (done ++ settled (run σ evs).2) ++ pending (run σ evs).1
  ≡ₚ seq 0 (next_caller (run σ evs).1).
Proof.
  induction evs as [|ev evs IH]; intros done σ Hfresh Hinv.
  - simpl. by rewrite app_nil_r.
  - rewrite run_cons. cbn [fst snd]. rewrite settled_app, (assoc (++)).
    apply IH; [by apply step_fresh | by apply accounted_step].
Qed.

(** X9: over any run from the initial state, the calls made so far are,
    counted with repetition, the calls whose promise has been settled and
    the calls still waiting (request on the wire, or parked in
    [failedQueue]).  So no call is dropped, no promise is settled twice or
    settled while its request still waits, and nothing is settled that was
    not called. *)
Theorem no_call_lost (evs : list event) :
  settled (run init evs).2 ++ pending (run init evs).1
    ≡ₚ seq 0 (next_caller (run init evs).1)
  ∧ NoDup (settled (run init evs).2)
  ∧ (∀ id, id < next_caller (run init evs).1 ↔
       id ∈ settled (run init evs).2 ∨ id ∈ pending (run init evs).1)
  ∧ (∀ id, id ∈ settled (run init evs).2 → id ∉ pending (run init evs).1).
Proof.
  assert (settled (run init evs).2 ++ pending (run init evs).1
          ≡ₚ seq 0 (next_caller (run init evs).1)) as Hp.
  { by apply (run_accounted evs [] init). }
  assert (NoDup (settled (run init evs).2 ++ pending (run init evs).1)) as Hnd
    by (rewrite Hp; apply NoDup_seq).
  apply NoDup_app in Hnd as (Hnd1 & Hdisj & _).
  split; [done|]. split; [done|]. split; [|done].
  intros id. rewrite <- elem_of_app, Hp, elem_of_seq. lia.
Qed.

Lemma no_call_lost_witness :
  let evs := [SetToken (Some "T1"); Call (get "/a"); Call (get "/b");
              Call (get "/c"); Respond 0 (Err e401); Respond 1 (Err e401);
              Respond 3 (Err e500); Respond 2 (ok "x")] in
  NoDup (settled (run init evs).2)
  ∧ settled (run init evs).2 = [1; 0; 2]
  ∧ pending (run init evs).1 = [].
Proof.
  intros evs. destruct (no_call_lost evs) as (_ & H & _).
  split; [exact H|]. split; reflexivity.
Defined.

(** ** A client wedged by a 401 on the refresh call *)

Lemma elem_of_on_wire σ rid c k :
  inflight σ !! rid = Some (c, k) → owner k ∈ on_wire σ.
Proof.
  intros H. unfold on_wire. apply list_elem_of_fmap.
  exists (rid, (c, k)). split; [done|]. by apply elem_of_map_to_list.
Qed.

Lemma reachable_queued_parked σ id :
  reachable σ → id ∈ queued σ → parked id σ.
Proof.
  intros Hreach Hid.
  destruct (reachable_pending _ Hreach) as [Hnd Hlt].
  split; [apply Hlt, elem_of_app; by right|].
  intros rid c Hin. apply NoDup_app in Hnd as (_ & Hdisj & _).
  apply (Hdisj id); [|done]. by apply (elem_of_on_wire _ _ _ _ Hin).
Qed.

Lemma elem_of_settled id ts : id ∈ settled ts → ∃ r, (id, r) ∈ settles ts.
Proof.
  unfold settled. intros ([id' r] & -> & H)%list_elem_of_fmap. by exists r.
Qed.

(** X11: in every reachable state, a 401 in answer to the refresh call
    wedges the client.  The handler queues the refresh call behind the
    requests it was to release and nothing else happens in that turn: the
    cell keeps its token and [isRefreshing] stays set.  From then on,
    whatever the events, no logout is signalled, [processQueue] never runs,
    [isRefreshing] stays set, and no call parked in the queue (the call
    that set off the refresh among them) is ever settled. *)
Theorem refresh_401_wedges_client (σ : state) (rid : nat) (c orig : config)
    (k : cont) (e : error) :
  reachable σ →
  inflight σ !! rid = Some (c, KRefresh orig k) →
  status <$> response e = Some 401%Z →
  (step σ (Respond rid (Err e))).2 = [Join (Waiter c (KRefresh orig k))]
  ∧ accessToken (step σ (Respond rid (Err e))).1 = accessToken σ
  ∧ isRefreshing (step σ (Respond rid (Err e))).1 = true
  ∧ queued (step σ (Respond rid (Err e))).1 = queued σ ++ [owner k]
  ∧ ∀ future,
      logouts (run (step σ (Respond rid (Err e))).1 future).2 = 0
      ∧ woken (run (step σ (Respond rid (Err e))).1 future).2 = []
      ∧ isRefreshing (run (step σ (Respond rid (Err e))).1 future).1 = true
      ∧ (∀ id, id ∈ queued σ ++ [owner k] →
           id ∉ settled (run (step σ (Respond rid (Err e))).1 future).2).
Proof.
  intros Hreach Hin H401.
  pose proof (reachable_step σ (Respond rid (Err e)) Hreach) as Hreach'.
  destruct (reachable_refresh_call _ _ _ _ _ Hreach Hin)
    as (Href & _ & _ & _ & Hretry & _).
  revert Hreach'.
  rewrite (step_respond_join _ _ _ _ _ Hin H401 Hretry Href). cbn [fst snd].
  set (σ' := set_failedQueue _ _). intros Hreach'.
  assert (queued σ' = queued σ ++ [owner k]) as Hq
    by (unfold queued; simpl; by rewrite fmap_app).
  split_all; try done.
  intros future.
  assert (stuck σ') as Hstuck.
  { split; [done|]. simpl.
    pose proof (reachable_wf _ Hreach) as [_ Hwf]. rewrite Href in Hwf.
    intros rid' c' k' Hl. apply lookup_delete_Some in Hl as [Hne Hl].
    apply caller_id_Some.
    destruct Hwf as [[rid0 (_ & Hothers & _)] | Hc].
    - destruct (decide (rid = rid0)) as [<-|Hne0]; [by eapply Hothers|].
      by destruct (Hothers _ _ _ Hne0 Hin) as [? [=]].
    - by eapply Hc. }
  assert (parked (owner k) σ') as Hpk.
  { apply reachable_queued_parked; [done|]. rewrite Hq. set_solver. }
  destruct (stuck_run (owner k) future σ' Hstuck Hpk) as ([H1 _] & H2 & H3 & _).
  split_all; try done.
  intros id Hid [r Hr]%elem_of_settled.
  assert (parked id σ') as Hpid
    by (apply reachable_queued_parked; [done | by rewrite Hq]).
  destruct (stuck_run id future σ' Hstuck Hpid) as (_ & _ & _ & H4 & _).
  by apply (H4 r).
Qed.

Lemma refresh_401_wedges_client_witness :
  let σ := (run init [SetToken (Some "T1"); Call (get "/a"); Call (get "/b");
                      Respond 0 (Err e401); Respond 1 (Err e401)]).1 in
  (step σ (Respond 2 (Err e401))).2
  = [Join (Waiter (with_bearer "T1" refresh_request)
             (KRefresh (set_retry true (with_bearer "T1" (get "/a"))) (KCaller 0)))]
  ∧ queued (step σ (Respond 2 (Err e401))).1 = [1; 0]
  ∧ logouts (run (step σ (Respond 2 (Err e401))).1
               [Call (get "/c"); Respond 3 (Err e401); SetToken None]).2 = 0.
Proof.
  intros σ.
  destruct (refresh_401_wedges_client σ 2 (with_bearer "T1" refresh_request)
              (set_retry true (with_bearer "T1" (get "/a"))) (KCaller 0) e401)
    as (H1 & _ & _ & H4 & H5).
  - apply (reachable_run init [SetToken (Some "T1"); Call (get "/a");
                               Call (get "/b"); Respond 0 (Err e401);
                               Respond 1 (Err e401)]).
    constructor.
  - reflexivity.
  - reflexivity.
  - split; [exact H1|]. split; [rewrite H4; reflexivity|].
    exact (proj1 (H5 [Call (get "/c"); Respond 3 (Err e401); SetToken None])).
Defined.

(** ** What a turn leaves alone *)

(** X7: the cell is written in three places only.  A call of
    [setAccessToken] stores its argument; the refresh call coming back with a
    response stores the [access] field of that response; the refresh call
    failing with anything but a 401 stores [null].  Every other turn of a
    reachable client (calls, answers to ordinary requests whatever their
    status, a 401 on the refresh call) leaves the cell as it was. *)
Theorem cell_written_only_by_refresh (σ : state) (ev : event) :
  reachable σ →
  (∀ t, ev = SetToken t → accessToken (step σ ev).1 = t)
  ∧ (∀ rid c orig k res,
       ev = Respond rid (Ok res) →
       inflight σ !! rid = Some (c, KRefresh orig k) →
       accessToken (step σ ev).1 = Some (access (data res)))
  ∧ (∀ rid c orig k e,
       ev = Respond rid (Err e) →
       inflight σ !! rid = Some (c, KRefresh orig k) →
       status <$> response e ≠ Some 401%Z →
       accessToken (step σ ev).1 = None)
  ∧ ((∀ t, ev ≠ SetToken t) →
     (∀ rid r c orig k,
        ev = Respond rid r →
        inflight σ !! rid = Some (c, KRefresh orig k) →
        ∃ e, r = Err e ∧ status <$> response e = Some 401%Z) →
     accessToken (step σ ev).1 = accessToken σ).
Proof.
  intros Hreach. split_all.
  - intros t ->. done.
  - intros rid c orig k res -> Hin.
    by destruct (refresh_ok_state _ _ _ _ _ res Hin) as (H & _).
  - intros rid c orig k e -> Hin He.
    destruct (reachable_refresh_call _ _ _ _ _ Hreach Hin)
      as (_ & [id ->] & Hq & _).
    by rewrite (step_respond_refresh_err _ _ _ _ _ e Hin (or_introl He) Hq).
  - intros Hset Hrefresh.
    pose proof (step_turn σ ev Hreach) as Hturn.
    remember (step σ ev) as out eqn:Hout. clear Hout.
    destruct Hturn as [c|t|rid r Hin|rid c id r Hin _
                       |rid c k e Hin H401 Hretry Href
                       |rid c id e Hin H401 Hretry Href
                       |rid c orig id res Hin
                       |rid c orig id e Hin He]; try done.
    + by destruct (Hset t).
    + destruct (Hrefresh _ _ _ _ _ eq_refl Hin) as (? & [=] & _).
    + destruct (Hrefresh _ _ _ _ _ eq_refl Hin) as (? & [= <-] & ?). done.
Qed.

Lemma cell_written_only_by_refresh_witness :
  let σ := (run init [SetToken (Some "T1"); Call (get "/a"); Call (get "/b");
                      Respond 0 (Err e401)]).1 in
  accessToken (step σ (Respond 1 (Err e500))).1 = Some "T1"
  ∧ accessToken (step σ (Respond 2 (ok "T2"))).1 = Some "T2"
  ∧ accessToken (step σ (Respond 2 (Err e500))).1 = None.
Proof.
  intros σ.
  assert (reachable σ) as Hreach.
  { apply (reachable_run init [SetToken (Some "T1"); Call (get "/a");
                               Call (get "/b"); Respond 0 (Err e401)]).
    constructor. }
  split; [|split].
  - destruct (cell_written_only_by_refresh σ (Respond 1 (Err e500)) Hreach)
      as (_ & _ & _ & H).
    apply H; [discriminate|]. intros rid r c orig k [= <- <-] Hin.
    vm_compute in Hin. discriminate.
  - destruct (cell_written_only_by_refresh σ (Respond 2 (ok "T2")) Hreach)
      as (_ & H & _).
    by apply (H 2 (with_bearer "T1" refresh_request)
                (set_retry true (with_bearer "T1" (get "/a"))) (KCaller 0)
                (Response 200 (Payload "T2" ""))).
  - destruct (cell_written_only_by_refresh σ (Respond 2 (Err e500)) Hreach)
      as (_ & _ & H & _).
    by apply (H 2 (with_bearer "T1" refresh_request)
                (set_retry true (with_bearer "T1" (get "/a"))) (KCaller 0) e500).
Defined.

Lemma logouts_rejection_trace e (q : list waiter) ids id0 :
  logouts (map (λ p, Woken p (Reject e)) q
           ++ Logout :: map (λ id, Settle id (Err e)) ids ++ [Settle id0 (Err e)]) = 1.
Proof. apply rejection_trace_logouts. Qed.

Lemma logouts_success_trace tok (q : list waiter) n c :
  logouts (map (λ p, Woken p (Resolve (Some tok))) q
           ++ Send n c
           :: imap (λ i p, Send (S n + i) (with_bearer tok (w_request p))) q) = 0.
Proof.
  rewrite logouts_app, logouts_wakes.
  change (logouts (Send n c :: ?l)) with (logouts l).
  apply (logouts_replays tok q (S n)).
Qed.

(** X8: the [auth:logout] event is dispatched in one kind of turn only, the
    one in which the refresh call fails with something other than a 401
    (no response, or another status), and then exactly once.  No other turn
    of a reachable client dispatches it: not a successful refresh, not a
    failure of an ordinary request, not a 401 on the refresh call. *)
Theorem logout_only_when_refresh_rejected (σ : state) (ev : event) :
  reachable σ →
  logouts (step σ ev).2 ≤ 1
  ∧ (logouts (step σ ev).2 = 1 ↔
     ∃ rid e c orig k,
       ev = Respond rid (Err e)
       ∧ inflight σ !! rid = Some (c, KRefresh orig k)
       ∧ status <$> response e ≠ Some 401%Z).
Proof.
  intros Hreach.
  pose proof (step_turn σ ev Hreach) as Hturn.
  remember (step σ ev) as out eqn:Hout. clear Hout.
  destruct Hturn as [c|t|rid r Hin|rid c id r Hin _
                     |rid c k e Hin H401 Hretry Href
                     |rid c id e Hin H401 Hretry Href
                     |rid c orig id res Hin
                     |rid c orig id e Hin He]; cbn [fst snd];
    try (unfold apiClient; cbn [fst snd]).
  - unfold logouts; simpl. split; [lia|]. split; [done|]. intros (? & ? & ? & ? & ? & ? & ? & ?); by simplify_eq.
  - unfold logouts; simpl. split; [lia|]. split; [done|]. intros (? & ? & ? & ? & ? & ? & ? & ?); by simplify_eq.
  - unfold logouts; simpl. split; [lia|]. split; [done|].
    intros (? & ? & ? & ? & ? & ? & ? & ?); by simplify_eq.
  - unfold logouts; simpl. split; [lia|]. split; [done|].
    intros (? & ? & ? & ? & ? & ? & ? & ?); by simplify_eq.
  - unfold logouts; simpl. split; [lia|]. split; [done|].
    intros (? & ? & ? & ? & ? & ? & ? & ?); by simplify_eq.
  - unfold logouts; simpl. split; [lia|]. split; [done|].
    intros (? & ? & ? & ? & ? & ? & ? & ?); by simplify_eq.
  - rewrite logouts_success_trace. split; [lia|]. split; [done|].
    intros (? & ? & ? & ? & ? & ? & ? & ?); by simplify_eq.
  - rewrite logouts_rejection_trace. split; [lia|]. split; [|done].
    intros _. by exists rid, e, c, orig, (KCaller id).
Qed.

Lemma logout_only_when_refresh_rejected_witness :
  let σ := (run init [SetToken (Some "T1"); Call (get "/a"); Call (get "/b");
                      Respond 0 (Err e401)]).1 in
  logouts (step σ (Respond 2 (Err network_error))).2 = 1
  ∧ logouts (step σ (Respond 2 (ok "T2"))).2 ≤ 1.
Proof.
  intros σ.
  assert (reachable σ) as Hreach.
  { apply (reachable_run init [SetToken (Some "T1"); Call (get "/a");
                               Call (get "/b"); Respond 0 (Err e401)]).
    constructor. }
  split.
  - apply (logout_only_when_refresh_rejected σ _ Hreach).
    exists 2, network_error, (with_bearer "T1" refresh_request),
      (set_retry true (with_bearer "T1" (get "/a"))), (KCaller 0).
    split; [reflexivity|]. split; [reflexivity | discriminate].
  - apply (logout_only_when_refresh_rejected σ _ Hreach).
Defined.

(** ** What is sent, and with which token *)

Lemma request_interceptor_bearer tok c :
  tok ≠ "" →
  headers (request_interceptor (Some tok) c) !! "Authorization" = Some (bearer tok).
Proof.
  intros H. rewrite request_interceptor_truthy by done. apply lookup_insert_eq.
Qed.

Lemma sends_success_trace tok (q : list waiter) n c :
  sends (map (λ p, Woken p (Resolve (Some tok))) q
         ++ Send n c
         :: imap (λ i p, Send (S n + i) (with_bearer tok (w_request p))) q)
  = (n, c) :: sends (imap (λ i p, Send (S n + i) (with_bearer tok (w_request p))) q).
Proof. by rewrite sends_app, sends_wakes. Qed.

(** X10: a request never leaves with a token other than the one in the
    cell.  In every turn of a reachable client, if the cell holds a
    non-empty token when the turn ends, each request sent in that turn
    (a new call, the refresh call, a replay) carries
    [Authorization: Bearer] followed by that token. *)
Theorem sent_with_cell_token (σ : state) (ev : event) (tok : string) :
  reachable σ →
  accessToken (step σ ev).1 = Some tok → tok ≠ "" →
  Forall (λ x, headers x.2 !! "Authorization" = Some ("Bearer " +:+ tok))
    (sends (step σ ev).2).
Proof.
  intros Hreach.
  pose proof (step_turn σ ev Hreach) as Hturn.
  remember (step σ ev) as out eqn:Hout. clear Hout.
  destruct Hturn as [c|t|rid r Hin|rid c id r Hin _
                     |rid c k e Hin H401 Hretry Href
                     |rid c id e Hin H401 Hretry Href
                     |rid c orig id res Hin
                     |rid c orig id e Hin He]; cbn [fst snd]; intros Htok Hne;
    try (by constructor).
  - simpl in *. rewrite Htok. repeat constructor.
    by apply request_interceptor_bearer.
  - simpl in *. rewrite Htok. repeat constructor.
    by apply request_interceptor_bearer.
  - set (σ1 := set_isRefreshing false _) in *.
    destruct (replay_all_frame (access (data res)) (failedQueue σ) σ1) as (F1 & _).
    rewrite F1 in Htok. simpl in Htok. injection Htok as ->.
    rewrite sends_success_trace.
    constructor; [apply lookup_insert_eq | apply (replays_bearer tok _ (S (next_rid σ)))].
  - assert (sends (map (λ p, Woken p (Reject e)) (failedQueue σ)
                   ++ Logout :: map (λ id, Settle id (Err e))
                                  (queued_callers (failedQueue σ))
                   ++ [Settle id (Err e)]) = []) as ->
      by apply rejection_trace_sends.
    constructor.
Qed.

Lemma sent_with_cell_token_witness :
  let σ := (run init [SetToken (Some "T1"); Call (get "/a"); Call (get "/b");
                      Respond 0 (Err e401); Respond 1 (Err e401)]).1 in
  Forall (λ x, headers x.2 !! "Authorization" = Some "Bearer T2")
    (sends (step σ (Respond 2 (ok "T2"))).2)
  ∧ length (sends (step σ (Respond 2 (ok "T2"))).2) = 2.
Proof.
  intros σ. split; [|reflexivity].
  apply (sent_with_cell_token σ (Respond 2 (ok "T2")) "T2").
  - apply (reachable_run init [SetToken (Some "T1"); Call (get "/a");
                               Call (get "/b"); Respond 0 (Err e401);
                               Respond 1 (Err e401)]).
    constructor.
  - reflexivity.
  - discriminate.
Defined.

(** ** While the refresh call is on the wire *)

(** X12: while the refresh call is on the wire, nothing but its own answer
    ends the refresh.  Any other turn of a reachable client leaves the
    refresh call on the wire and [isRefreshing] set, settles no waiter,
    signals no logout, and lets the queue grow by at most the one request
    answered in that turn; and unless the turn is a new call of a service
    module, nothing is sent in it, so no second refresh call is made. *)
Theorem refresh_undisturbed (σ : state) (rid0 : nat) (c0 orig : config)
    (k : cont) (ev : event) :
  reachable σ →
  inflight σ !! rid0 = Some (c0, KRefresh orig k) →
  (∀ r, ev ≠ Respond rid0 r) →
  inflight (step σ ev).1 !! rid0 = Some (c0, KRefresh orig k)
  ∧ isRefreshing (step σ ev).1 = true
  ∧ woken (step σ ev).2 = []
  ∧ logouts (step σ ev).2 = 0
  ∧ (∃ ws, failedQueue (step σ ev).1 = failedQueue σ ++ ws
           ∧ joined (step σ ev).2 = ws ∧ length ws ≤ 1)
  ∧ ((∀ c, ev ≠ Call c) → sends (step σ ev).2 = []).
Proof.
  intros Hreach Hin0 Hev.
  destruct (reachable_refresh_call _ _ _ _ _ Hreach Hin0) as (Href & _).
  pose proof (reachable_fresh _ Hreach) as Hfresh.
  assert (∀ rid c' orig' k', inflight σ !! rid = Some (c', KRefresh orig' k') →
            rid = rid0) as Huniq.
  { intros rid c' orig' k' H. by eapply at_most_one_refresh_call. }
  pose proof (step_turn σ ev Hreach) as Hturn.
  remember (step σ ev) as out eqn:Hout. clear Hout.
  destruct Hturn as [c|t|rid r Hin|rid c id r Hin _
                     |rid c k1 e Hin H401 Hretry _
                     |rid c id e Hin H401 Hretry Hidle
                     |rid c orig1 id res Hin
                     |rid c orig1 id e Hin He]; cbn [fst snd].
  - simpl. split_all; try done.
    + rewrite lookup_insert_ne; [done|]. intros <-.
      rewrite Hfresh in Hin0; [done|lia].
    + exists []. rewrite app_nil_r. split_all; [done | done | simpl; lia].
    + intros H. by destruct (H c).
  - simpl. split_all; try done. exists []. rewrite app_nil_r. split_all; [done | done | simpl; lia].
  - split_all; try done. exists []. rewrite app_nil_r. split_all; [done | done | simpl; lia].
  - assert (rid ≠ rid0) as Hne by (intros ->; congruence).
    simpl. split_all; try done.
    + by rewrite lookup_delete_ne.
    + exists []. rewrite app_nil_r. split_all; [done | done | simpl; lia].
  - assert (rid ≠ rid0) as Hne by (intros ->; by destruct (Hev (Err e))).
    simpl. split_all; try done.
    + by rewrite lookup_delete_ne.
    + eexists. split_all; [done | done | simpl; lia].
  - congruence.
  - rewrite (Huniq _ _ _ _ Hin) in Hev. by destruct (Hev (Ok res)).
  - rewrite (Huniq _ _ _ _ Hin) in Hev. by destruct (Hev (Err e)).
Qed.

Lemma refresh_undisturbed_witness :
  let σ := (run init [SetToken (Some "T1"); Call (get "/a"); Call (get "/b");
                      Respond 0 (Err e401)]).1 in
  isRefreshing (step σ (Respond 1 (Err e401))).1 = true
  ∧ sends (step σ (Respond 1 (Err e401))).2 = []
  ∧ logouts (step σ (Respond 1 (Err e401))).2 = 0.
Proof.
  intros σ.
  destruct (refresh_undisturbed σ 2 (with_bearer "T1" refresh_request)
              (set_retry true (with_bearer "T1" (get "/a"))) (KCaller 0)
              (Respond 1 (Err e401)))
    as (_ & H2 & _ & H4 & _ & H6).
  - apply (reachable_run init [SetToken (Some "T1"); Call (get "/a");
                               Call (get "/b"); Respond 0 (Err e401)]).
    constructor.
  - reflexivity.
  - discriminate.
  - split; [exact H2|]. split; [|exact H4]. apply H6. discriminate.
Defined.

(** X4: one refresh at a time.  In every reachable state at most one
    refresh call is on the wire; when one is, [isRefreshing] is set; and
    when [isRefreshing] is clear, no refresh call is on the wire and
    [failedQueue] is empty, so nobody waits for a refresh that is not
    running. *)
Theorem one_refresh_at_a_time (σ : state) :
  reachable σ →
  (∀ rid1 rid2 c1 c2 orig1 orig2 k1 k2,
     inflight σ !! rid1 = Some (c1, KRefresh orig1 k1) →
     inflight σ !! rid2 = Some (c2, KRefresh orig2 k2) →
     rid1 = rid2)
  ∧ (∀ rid c orig k,
       inflight σ !! rid = Some (c, KRefresh orig k) → isRefreshing σ = true)
  ∧ (isRefreshing σ = false →
     failedQueue σ = []
     ∧ ∀ rid c k, inflight σ !! rid = Some (c, k) → ∃ id, k = KCaller id).
Proof.
  intros Hreach. split_all.
  - intros. by eapply at_most_one_refresh_call.
  - intros rid c orig k Hin.
    by destruct (reachable_refresh_call _ _ _ _ _ Hreach Hin) as (H & _).
  - intros Hidle. split; [by apply reachable_idle_queue|].
    intros rid c k Hin. destruct k as [id|orig k]; [by eexists|].
    destruct (reachable_refresh_call _ _ _ _ _ Hreach Hin) as (H & _).
    congruence.
Qed.

Lemma one_refresh_at_a_time_witness :
  let σ := (run init [SetToken (Some "T1"); Call (get "/a"); Call (get "/b");
                      Respond 0 (Err e401); Respond 1 (Err e401);
                      Respond 2 (ok "T2")]).1 in
  isRefreshing σ = false ∧ failedQueue σ = [].
Proof.
  intros σ. split; [reflexivity|].
  destruct (one_refresh_at_a_time σ) as (_ & _ & H).
  - apply (reachable_run init [SetToken (Some "T1"); Call (get "/a");
                               Call (get "/b"); Respond 0 (Err e401);
                               Respond 1 (Err e401); Respond 2 (ok "T2")]).
    constructor.
  - exact (proj1 (H eq_refl)).
Defined.

(** ** The remaining paths *)

Lemma queued_callers_owner (q : list waiter) :
  Forall (λ p, is_Some (caller_id (w_cont p))) q →
  queued_callers q = (λ p, owner (w_cont p)) <$> q.
Proof.
  induction 1 as [|p q [id Hid] _ IH]; [done|].
  rewrite queued_callers_cons, Hid, fmap_cons, IH.
  destruct (w_cont p); simpl in *; by simplify_eq.
Qed.

(** X3: in every reachable state, when the refresh call fails with
    something other than a 401 (no response, or another status), the
    [catch] block runs: [processQueue] rejects every promise in the queue,
    in queue order, with the error of the refresh call itself; the callers
    of the queued requests and the caller of the request that set off the
    refresh see their promise rejected with that same error, each exactly
    once (stated as a multiset, not as an order); the cell is set to
    [null]; [auth:logout] is dispatched once, however many requests waited;
    nothing is sent; and the client is idle with an empty queue. *)
Theorem refresh_failure_rejects_everyone (σ : state) (rid : nat) (c orig : config)
    (k : cont) (e : error) :
  reachable σ →
  inflight σ !! rid = Some (c, KRefresh orig k) →
  status <$> response e ≠ Some 401%Z →
  accessToken (step σ (Respond rid (Err e))).1 = None
  ∧ isRefreshing (step σ (Respond rid (Err e))).1 = false
  ∧ failedQueue (step σ (Respond rid (Err e))).1 = []
  ∧ take (length (failedQueue σ)) (step σ (Respond rid (Err e))).2
    = map (λ p, Woken p (Reject e)) (failedQueue σ)
  ∧ woken (step σ (Respond rid (Err e))).2 = failedQueue σ
  ∧ settles (step σ (Respond rid (Err e))).2
    ≡ₚ (λ id, (id, Err e)) <$> (queued σ ++ [owner k])
  ∧ logouts (step σ (Respond rid (Err e))).2 = 1
  ∧ sends (step σ (Respond rid (Err e))).2 = [].
Proof.
  intros Hreach Hin He.
  destruct (reachable_refresh_call _ _ _ _ _ Hreach Hin) as (_ & [id ->] & Hq & _).
  rewrite (step_respond_refresh_err _ _ _ _ _ e Hin (or_introl He) Hq).
  cbn [fst snd].
  rewrite rejection_trace_take, rejection_trace_woken, rejection_trace_settled,
    rejection_trace_logouts, rejection_trace_sends, (queued_callers_owner _ Hq).
  done.
Qed.

Lemma refresh_failure_rejects_everyone_witness :
  let σ := (run init [SetToken (Some "T1"); Call (get "/a"); Call (get "/b");
                      Respond 0 (Err e401); Respond 1 (Err e401);
                      Respond 2 (ok "T2"); Call (get "/c"); Respond 5 (Err e401);
                      Respond 4 (Err e401); Call (get "/d");
                      Respond 7 (Err e401)]).1 in
  map (λ p, url (w_request p)) (failedQueue σ) = ["/b"; "/d"]
  ∧ accessToken (step σ (Respond 6 (Err e500))).1 = None
  ∧ map (λ p, url (w_request p)) (woken (step σ (Respond 6 (Err e500))).2)
    = ["/b"; "/d"]
  ∧ settles (step σ (Respond 6 (Err e500))).2
    ≡ₚ [(1, Err e500); (2, Err e500); (3, Err e500)]
  ∧ logouts (step σ (Respond 6 (Err e500))).2 = 1.
Proof.
  intros σ.
  destruct (refresh_failure_rejects_everyone σ 6 (with_bearer "T2" refresh_request)
              (set_retry true (with_bearer "T2" (get "/c"))) (KCaller 2) e500)
    as (H1 & _ & _ & _ & H5 & H6 & H7 & _).
  - apply (reachable_run init [SetToken (Some "T1"); Call (get "/a");
                               Call (get "/b"); Respond 0 (Err e401);
                               Respond 1 (Err e401); Respond 2 (ok "T2");
                               Call (get "/c"); Respond 5 (Err e401);
                               Respond 4 (Err e401); Call (get "/d");
                               Respond 7 (Err e401)]).
    constructor.
  - reflexivity.
  - discriminate.
  - split; [reflexivity|]. split; [exact H1|]. split; [by rewrite H5|].
    split; [|exact H7].
    etrans; [exact H6|]. vm_compute. apply perm_skip, perm_swap.
Defined.

(** X2: a successful response is handed on as it is.  Whatever the state of
    the client (idle or refreshing), the answer to a request of a service
    module settles that module's promise with the very response received;
    the cell, [isRefreshing] and the queue are untouched, nothing is sent,
    and the other requests stay on the wire. *)
Theorem success_passes_through (σ : state) (rid : nat) (c : config) (id : nat)
    (res : axios_response) :
  inflight σ !! rid = Some (c, KCaller id) →
  (step σ (Respond rid (Ok res))).2 = [Settle id (Ok res)]
  ∧ accessToken (step σ (Respond rid (Ok res))).1 = accessToken σ
  ∧ isRefreshing (step σ (Respond rid (Ok res))).1 = isRefreshing σ
  ∧ failedQueue (step σ (Respond rid (Ok res))).1 = failedQueue σ
  ∧ inflight (step σ (Respond rid (Ok res))).1 !! rid = None
  ∧ (∀ rid', rid' ≠ rid →
       inflight (step σ (Respond rid (Ok res))).1 !! rid' = inflight σ !! rid').
Proof.
  intros Hin. rewrite (step_respond_ok_caller _ _ _ _ res Hin). simpl.
  split_all; try done.
  - apply lookup_delete_eq.
  - intros rid' Hne. by apply lookup_delete_ne.
Qed.

Lemma success_passes_through_witness :
  let σ := (run init [SetToken (Some "T1"); Call (get "/a"); Call (get "/b");
                      Respond 0 (Err e401)]).1 in
  (step σ (Respond 1 (ok "rooms"))).2 = [Settle 1 (ok "rooms")]
  ∧ isRefreshing (step σ (Respond 1 (ok "rooms"))).1 = true.
Proof.
  intros σ.
  destruct (success_passes_through σ 1 (with_bearer "T1" (get "/b")) 1
              (Response 200 (Payload "rooms" "")) eq_refl)
    as (H1 & _ & H3 & _).
  split; [exact H1|]. unfold ok. rewrite H3. reflexivity.
Defined.

(** ** What [isRefreshing] stands for *)

Lemma refreshing_outstanding σ :
  reachable σ → isRefreshing σ = true → refresh_on_wire σ ∨ refresh_parked σ.
Proof.
  induction 1 as [|σ ev Hreach IH]; [done|].
  pose proof (reachable_fresh _ Hreach) as Hfresh.
  pose proof (step_turn σ ev Hreach) as Hturn.
  remember (step σ ev) as out eqn:Hout. clear Hout.
  destruct Hturn as [c|t|rid r Hin|rid c id r Hin _
                     |rid c k e Hin H401 Hretry Href
                     |rid c id e Hin H401 Hretry Hidle
                     |rid c orig id res Hin
                     |rid c orig id e Hin He]; cbn [fst snd].
  - simpl. intros Href. destruct (IH Href) as [(rid & c' & orig & k & H)|H];
      [left|by right].
    exists rid, c', orig, k. simpl. rewrite lookup_insert_ne; [done|].
    intros <-. rewrite Hfresh in H; [done|lia].
  - done.
  - done.
  - simpl. intros Href. destruct (IH Href) as [(rid' & c' & orig & k & H)|H];
      [left|by right].
    exists rid', c', orig, k. simpl. rewrite lookup_delete_ne; [done|].
    intros ->. congruence.
  - intros _. destruct (IH Href) as [(rid' & c' & orig & k' & H)|(p & orig & k' & H & Hk)].
    + destruct (decide (rid' = rid)) as [->|Hne].
      * right. rewrite Hin in H. injection H as <- ->.
        exists (Waiter c (KRefresh orig k')), orig, k'. simpl.
        split; [|done]. apply elem_of_app. right. by apply list_elem_of_singleton.
      * left. exists rid', c', orig, k'. simpl. by rewrite lookup_delete_ne.
    + right. exists p, orig, k'. simpl. split; [|done].
      apply elem_of_app. by left.
  - intros _. left. eexists _, _, _, _. simpl. apply lookup_insert_eq.
  - set (σ1 := set_isRefreshing false _).
    destruct (replay_all_frame (access (data res)) (failedQueue σ) σ1) as (_ & F2 & _).
    rewrite F2. done.
  - done.
Qed.

(** X13: [isRefreshing] is set exactly while a refresh call is outstanding.
    In every reachable state the flag is set if and only if the refresh
    call is on the wire or sits in [failedQueue] (where a 401 on it has put
    it); the two never happen together. *)
Theorem isRefreshing_iff_refresh_outstanding (σ : state) :
  reachable σ →
  (isRefreshing σ = true ↔ refresh_on_wire σ ∨ refresh_parked σ)
  ∧ ¬ (refresh_on_wire σ ∧ refresh_parked σ).
Proof.
  intros Hreach. split; [split|].
  - by apply refreshing_outstanding.
  - intros [(rid & c & orig & k & H)|(p & orig & k & Hp & Hk)].
    + by destruct (reachable_refresh_call _ _ _ _ _ Hreach H) as (? & _).
    + destruct (isRefreshing σ) eqn:Href; [done|].
      rewrite (reachable_idle_queue _ Hreach Href) in Hp.
      by apply elem_of_nil in Hp.
  - intros [(rid & c & orig & k & H) (p & orig' & k' & Hp & Hk)].
    destruct (reachable_refresh_call _ _ _ _ _ Hreach H) as (_ & _ & Hq & _).
    rewrite Forall_forall in Hq. destruct (Hq p Hp) as [id Hid].
    rewrite Hk in Hid. done.
Qed.

Lemma isRefreshing_iff_refresh_outstanding_witness :
  let σ := (run init [SetToken (Some "T1"); Call (get "/a");
                      Respond 0 (Err e401)]).1 in
  isRefreshing σ = true.
Proof.
  intros σ.
  destruct (isRefreshing_iff_refresh_outstanding σ) as [[_ H] _].
  - apply (reachable_run init [SetToken (Some "T1"); Call (get "/a");
                               Respond 0 (Err e401)]).
    constructor.
  - apply H. left.
    exists 1, (with_bearer "T1" refresh_request),
      (set_retry true (with_bearer "T1" (get "/a"))), (KCaller 0).
    reflexivity.
Defined.
